(** * indefinite-observable: IndefiniteObservable, IndefiniteSubject and the
    observer adapter, embedded from [dist/indefinite-observable.js] and from
    the bundled copy of the library.

    The models come first ([Js], [IndefiniteSubject], [IndefiniteObservable]
    and the example programs), then what is proved of them ([SetFacts],
    [SubjectTheory], [ObservableTheory]) and the proved properties at work
    on the example programs ([SubjectScenarios], [ObservableScenarios]).

    The rest of the two files is modelled in [SymbolObservable] (the key
    under which both copies install their interoperability method) and in
    [Pundle] (the module runtime at the head of the bundle); what is proved
    of them, and more about the Subject and the Observable of dist, is in
    [SubjectLifecycle], [SubscriptionTheory], [SymbolObservableTheory] and
    [PundleTheory], with the scenarios that follow them. *)

From Stdlib Require Import List Arith Lia Bool.
From Stdlib Require String.
Import ListNotations.

(** ** JavaScript objects, functions and exceptions

    Every value the library handles is a reference to a heap object.  A
    function is an object that can be called; an observer is an object whose
    [next] property holds a function.  The code of a function is named by a
    [fid]; what it does when called is given by the environment (the [body]
    tables of the two modules below).  An address outside the heap stands
    for a value that is no object (a number, a string): it is not callable
    and has no properties. *)
Module Js.

Definition oid := nat.
Definition fid := nat.

Record object := mkObject {
  code : option fid;       (* [Some f]: typeof is 'function', calling it runs [f] *)
  next_prop : option oid   (* the object held by property [next]; [None]: absent or falsy *)
}.

Definition heap := list object.

Inductive exn :=
| TypeError
| Raised (n : nat).

(** [typeof x === 'function'] *)
Definition typeof_function (h : heap) (x : oid) : bool :=
  match nth_error h x with
  | Some ob => match code ob with Some _ => true | None => false end
  | None => false
  end.

(** [x.next], when it is truthy *)
Definition get_next (h : heap) (x : oid) : option oid :=
  match nth_error h x with
  | Some ob => next_prop ob
  | None => None
  end.

(** the code run by the call [x(...)]; [None]: [x] is not callable *)
Definition callee (h : heap) (x : oid) : option fid :=
  match nth_error h x with
  | Some ob => code ob
  | None => None
  end.

(** the code run by the call [x.next(...)]; [None]: TypeError *)
Definition method_next (h : heap) (x : oid) : option fid :=
  match get_next h x with
  | Some m => callee h m
  | None => None
  end.

(** the object literal [{ next: listener }], allocated at a fresh address *)
Definition alloc (ob : object) (h : heap) : oid * heap := (length h, h ++ [ob]).

(** [wrapWithObserver] of dist/indefinite-observable.js *)
Definition wrapWithObserver (listener : oid) (h : heap) : oid * heap :=
  if typeof_function h listener
  then alloc {| code := None; next_prop := Some listener |} h
  else (listener, h).

(** ** The built-in [Set], as ECMAScript specifies it: a list of entries in
    insertion order, where [delete] leaves an empty entry behind ([None]) so
    that an iteration in progress keeps its position. *)
Definition SetData := list (option oid).

Definition same_entry (x : oid) (e : option oid) : bool :=
  match e with
  | Some y => x =? y
  | None => false
  end.

Definition Set_has (s : SetData) (x : oid) : bool := existsb (same_entry x) s.

Definition Set_add (s : SetData) (x : oid) : SetData :=
  if Set_has s x then s else s ++ [Some x].

Definition Set_delete (s : SetData) (x : oid) : SetData :=
  map (fun e => if same_entry x e then None else e) s.

(** the members, in insertion order *)
Fixpoint members (s : SetData) : list oid :=
  match s with
  | [] => []
  | Some x :: s' => x :: members s'
  | None :: s' => members s'
  end.

End Js.

(** ** IndefiniteSubject *)
Module IndefiniteSubject.
Import Js.

Section Subject.

Variable value : Type.
Variable undefined : value.

Record Subject := mkSubject {
  _observers : SetData;
  _hasStarted : bool;
  _lastValue : value
}.

(** What crosses the Subject's interface: [Emit v] when [subject.next(v)] is
    entered, [Deliver o v] when the Subject calls [o.next(v)]. *)
Inductive event :=
| Emit (v : value)
| Deliver (o : oid) (v : value).

Record World := mkWorld {
  objects : heap;
  subject : Subject;
  trace : list event
}.

(** The object returned by [subscribe]: its [unsubscribe] closes over the
    normalized observer. *)
Record Subscription := mkSubscription { observer : oid }.

Inductive result :=
| RUndefined
| RSubscription (s : Subscription).

Inductive completion :=
| Returned (r : result)
| Threw (e : exn)
| Diverged.

(** What an observer's [next] function may do: call back into the Subject,
    or throw.  An exception of a call it makes passes through it. *)
Inductive action :=
| CallNext (v : value)
| CallSubscribe (l : oid)
| CallUnsubscribe (s : Subscription)
| ThrowExn (e : exn).

(** The environment: the statements function [f] runs when called with [v]
    in world [w]. *)
Variable body : fid -> value -> World -> list action.

Inductive call :=
| Next (v : value)
| Subscribe (observerOrNext : oid)
| Unsubscribe (s : Subscription)
| ForEachFrom (i : nat) (v : value).

(** a statement is a throw or a call of one of the Subject's methods *)
Definition call_of (a : action) : exn + call :=
  match a with
  | CallNext v => inr (Next v)
  | CallSubscribe l => inr (Subscribe l)
  | CallUnsubscribe s => inr (Unsubscribe s)
  | ThrowExn e => inl e
  end.

Definition log (e : event) (w : World) : World :=
  {| objects := objects w; subject := subject w; trace := trace w ++ [e] |}.

Definition set_objects (h : heap) (w : World) : World :=
  {| objects := h; subject := subject w; trace := trace w |}.

Definition set_observers (s : SetData) (w : World) : World :=
  {| objects := objects w;
     subject := {| _observers := s;
                   _hasStarted := _hasStarted (subject w);
                   _lastValue := _lastValue (subject w) |};
     trace := trace w |}.

Definition set_hasStarted (b : bool) (w : World) : World :=
  {| objects := objects w;
     subject := {| _observers := _observers (subject w);
                   _hasStarted := b;
                   _lastValue := _lastValue (subject w) |};
     trace := trace w |}.

Definition set_lastValue (v : value) (w : World) : World :=
  {| objects := objects w;
     subject := {| _observers := _observers (subject w);
                   _hasStarted := _hasStarted (subject w);
                   _lastValue := v |};
     trace := trace w |}.

Definition andThen (x : World * completion) (k : World -> World * completion)
  : World * completion :=
  match x with
  | (w, Returned _) => k w
  | other => other
  end.

Section Methods.

(** [rec] runs a call made from inside a method or a callback. *)
Variable rec : call -> World -> World * completion.

(** the statements of a function body, in order *)
Fixpoint run (acts : list action) (w : World) : World * completion :=
  match acts with
  | [] => (w, Returned RUndefined)
  | a :: rest =>
      match call_of a with
      | inl e => (w, Threw e)
      | inr c => andThen (rec c w) (run rest)
      end
  end.

(** [observer.next(v)] *)
Definition invoke_next (o : oid) (v : value) (w : World) : World * completion :=
  match method_next (objects w) o with
  | None => (w, Threw TypeError)
  | Some f => let w1 := log (Deliver o v) w in run (body f v w1) w1
  end.

(** [this._observers.forEach((observer) => observer.next(value))], from entry
    [i] on: the entry list is read again at every step. *)
Definition Set_forEach (i : nat) (v : value) (w : World) : World * completion :=
  match nth_error (_observers (subject w)) i with
  | None => (w, Returned RUndefined)
  | Some None => rec (ForEachFrom (S i) v) w
  | Some (Some o) => andThen (invoke_next o v w) (rec (ForEachFrom (S i) v))
  end.

(** [next(value)]; the [Emit] entry records that the call was made *)
Definition next (v : value) (w : World) : World * completion :=
  let w0 := log (Emit v) w in
  let w1 := set_hasStarted true w0 in
  let w2 := set_lastValue v w1 in
  rec (ForEachFrom 0 v) w2.

(** [subscribe(observerOrNext)] *)
Definition subscribe (observerOrNext : oid) (w : World) : World * completion :=
  let (obs, h) := wrapWithObserver observerOrNext (objects w) in
  let w1 := set_objects h w in
  let w2 := set_observers (Set_add (_observers (subject w1)) obs) w1 in
  andThen
    (if _hasStarted (subject w2)
     then invoke_next obs (_lastValue (subject w2)) w2
     else (w2, Returned RUndefined))
    (fun w3 => (w3, Returned (RSubscription {| observer := obs |}))).

(** [unsubscribe()] of the Subscription [s]: [this._observers.delete(observer)] *)
Definition unsubscribe (s : Subscription) (w : World) : World * completion :=
  (set_observers (Set_delete (_observers (subject w)) (observer s)) w,
   Returned RUndefined).

Definition dispatch (c : call) (w : World) : World * completion :=
  match c with
  | Next v => next v w
  | Subscribe l => subscribe l w
  | Unsubscribe s => unsubscribe s w
  | ForEachFrom i v => Set_forEach i v w
  end.

End Methods.

(** Callbacks may call the Subject while it is calling them, and a pass may
    go on for ever (an observer that subscribes a new observer at every
    call): [fuel] bounds the depth of the calls and the steps of a pass, and
    a run that exhausts it is [Diverged]. *)
Fixpoint exec (fuel : nat) (c : call) (w : World) : World * completion :=
  match fuel with
  | 0 => (w, Diverged)
  | S n => dispatch (exec n) c w
  end.

(** [new IndefiniteSubject()] in a program whose objects are [h] *)
Definition new (h : heap) : World :=
  {| objects := h;
     subject := {| _observers := []; _hasStarted := false; _lastValue := undefined |};
     trace := [] |}.

(** A Subject is used through its public methods only. *)
Inductive reachable : World -> Prop :=
| reach_new h : reachable (new h)
| reach_run fuel acts w : reachable w -> reachable (fst (run (exec fuel) acts w)).

(** *** Reading a trace *)

(** the events logged between [w] and a later world [w'] *)
Definition events_since (w w' : World) : list event :=
  skipn (length (trace w)) (trace w').

(** the values [o.next] was called with, in order *)
Fixpoint deliveries (o : oid) (t : list event) : list value :=
  match t with
  | [] => []
  | Deliver o' v :: t' => if o =? o' then v :: deliveries o t' else deliveries o t'
  | Emit _ :: t' => deliveries o t'
  end.

(** the observers whose [next] was called, in order *)
Fixpoint notified (t : list event) : list oid :=
  match t with
  | [] => []
  | Deliver o _ :: t' => o :: notified t'
  | Emit _ :: t' => notified t'
  end.

Definition latest (acc : option value) (e : event) : option value :=
  match e with
  | Emit v => Some v
  | Deliver _ _ => acc
  end.

(** the argument of the most recent call of [subject.next] *)
Definition last_emitted (t : list event) : option value := fold_left latest t None.

(** the world in which the delivery pass of [next(v)] starts *)
Definition emitting (v : value) (w : World) : World :=
  set_lastValue v (set_hasStarted true (log (Emit v) w)).

(** the world after [o.next(v)] was called on each of [os], when none of the
    calls does anything to the Subject *)
Definition delivered (os : list oid) (v : value) (w : World) : World :=
  fold_left (fun w' o => log (Deliver o v) w') os w.

(** [o.next] is a function that neither calls the Subject nor throws *)
Definition quiet (h : heap) (o : oid) : Prop :=
  exists f, method_next h o = Some f /\ forall v w, body f v w = [].

(** a sequence of emissions, one [next] call after the other *)
Definition emit_all (fuel : nat) (vs : list value) (w : World) : World :=
  fold_left (fun w' v => fst (exec fuel (Next v) w')) vs w.

(** *** What the proofs speak of *)

(** the run came to an end: it returned or threw *)
Definition ended (c : completion) : Prop := c <> Diverged.

(** [rec2] gives every result that [rec1] gives *)
Definition extends (rec1 rec2 : call -> World -> World * completion) : Prop :=
  forall c w w' r, rec1 c w = (w', r) -> ended r -> rec2 c w = (w', r).

(** every call that [ok] allows takes a world to one that [R] relates to it *)
Definition respects (R : World -> World -> Prop) (ok : call -> Prop)
  (rec : call -> World -> World * completion) : Prop :=
  forall c w, ok c -> R w (fst (rec c w)).

Definition always (c : call) : Prop := True.

(** the trace of [w'] continues that of [w] *)
Definition grows (w w' : World) : Prop := exists t, trace w' = trace w ++ t.

(** [_hasStarted] and [_lastValue] record the most recent emission *)
Definition coherent (w : World) : Prop :=
  last_emitted (trace w) =
  if _hasStarted (subject w) then Some (_lastValue (subject w)) else None.

(** [visits fuel v w0 i w]: the pass of [next(v)] that started in world [w0]
    has come to entry [i] of the Set, in world [w]; the observers it called
    on the way have all returned. *)
Inductive visits (fuel : nat) (v : value) (w0 : World) : nat -> World -> Prop :=
| visits_start : visits fuel v w0 0 w0
| visits_empty i w :
    visits fuel v w0 i w ->
    nth_error (_observers (subject w)) i = Some None ->
    visits fuel v w0 (S i) w
| visits_call i w o w1 r :
    visits fuel v w0 i w ->
    nth_error (_observers (subject w)) i = Some (Some o) ->
    invoke_next (exec fuel) o v w = (w1, Returned r) ->
    visits fuel v w0 (S i) w1.

(** The delivery pass of [next] notifies exactly the observers that were
    registered when [next] was called. *)
Definition snapshot_delivery : Prop :=
  forall w v fuel w' r,
    exec fuel (Next v) w = (w', Returned r) ->
    forall o, In o (notified (events_since w w')) <->
              In o (members (_observers (subject w))).

(** [subject.next(x)] calls the [next] of every observer that is registered
    when it is called exactly once with [x], and has done so when it
    returns: none is skipped, none is called twice. *)
Definition synchronous_fan_out : Prop :=
  forall w x fuel w' r,
    reachable w ->
    exec fuel (Next x) w = (w', Returned r) ->
    forall o, In o (members (_observers (subject w))) ->
              deliveries o (events_since w w') = [x].

(** a callback statement that changes who is subscribed *)
Definition resubscribes (a : action) : bool :=
  match a with
  | CallSubscribe _ | CallUnsubscribe _ => true
  | CallNext _ | ThrowExn _ => false
  end.

Definition keeps_subscribers (c : call) : Prop :=
  match c with
  | Subscribe _ | Unsubscribe _ => False
  | Next _ | ForEachFrom _ _ => True
  end.

(** between [a] and [b] the Set is untouched and only its members are called *)
Definition among_subscribers (a b : World) : Prop :=
  _observers (subject b) = _observers (subject a) /\
  exists t, trace b = trace a ++ t /\
            incl (notified t) (members (_observers (subject a))).

End Subject.

Arguments mkSubject {value} _observers _hasStarted _lastValue.
Arguments mkWorld {value} objects subject trace.
Arguments Emit {value} v.
Arguments Deliver {value} o v.
Arguments CallNext {value} v.
Arguments CallSubscribe {value} l.
Arguments CallUnsubscribe {value} s.
Arguments ThrowExn {value} e.
Arguments Next {value} v.
Arguments Subscribe {value} observerOrNext.
Arguments Unsubscribe {value} s.
Arguments ForEachFrom {value} i v.
Arguments objects {value} w.
Arguments subject {value} w.
Arguments trace {value} w.
Arguments _observers {value} s.
Arguments _hasStarted {value} s.
Arguments _lastValue {value} s.
Arguments call_of {value} a.
Arguments log {value} e w.
Arguments set_objects {value} h w.
Arguments set_observers {value} s w.
Arguments set_hasStarted {value} b w.
Arguments set_lastValue {value} v w.
Arguments andThen {value} x k.
Arguments run {value} rec acts w.
Arguments invoke_next {value} body rec o v w.
Arguments Set_forEach {value} body rec i v w.
Arguments next {value} rec v w.
Arguments subscribe {value} body rec observerOrNext w.
Arguments unsubscribe {value} s w.
Arguments dispatch {value} body rec c w.
Arguments exec {value} body fuel c w.
Arguments new {value} undefined h.
Arguments reachable {value} undefined body w.
Arguments reach_new {value} undefined body h.
Arguments reach_run {value} undefined body fuel acts w.
Arguments events_since {value} w w'.
Arguments deliveries {value} o t.
Arguments notified {value} t.
Arguments latest {value} acc e.
Arguments last_emitted {value} t.
Arguments emitting {value} v w.
Arguments delivered {value} os v w.
Arguments quiet {value} body h o.
Arguments emit_all {value} body fuel vs w.
Arguments extends {value} rec1 rec2.
Arguments respects {value} R ok rec.
Arguments always {value} c.
Arguments grows {value} w w'.
Arguments coherent {value} w.
Arguments visits {value} body fuel v w0.
Arguments visits_start {value} body fuel v w0.
Arguments visits_empty {value} body fuel v w0 i w.
Arguments visits_call {value} body fuel v w0 i w o w1 r.
Arguments snapshot_delivery {value} body.
Arguments synchronous_fan_out {value} undefined body.
Arguments resubscribes {value} a.
Arguments keeps_subscribers {value} c.
Arguments among_subscribers {value} a b.

End IndefiniteSubject.

(** ** IndefiniteObservable, and the copy of it in the bundle *)
Module IndefiniteObservable.
Import Js.

(** [new IndefiniteObservable(connect)] of dist/indefinite-observable.js *)
Record Observable := mkObservable { _connect : oid }.

(** [new IndefiniteObservable(creator)] of the bundled copy *)
Record BundledObservable := mkBundledObservable { _creator : oid }.

(** The variables of one [subscribe] call that its [unsubscribe] closes over. *)
Record scope := mkScope {
  disconnect : oid;
  closed : bool
}.

(** A Subscription of dist is the object whose [unsubscribe] method reads the
    scope of its [subscribe] call; a Subscription of the bundle is
    [{ unsubscribe: unsubscribe }], holding the value the creator returned. *)
Inductive Subscription :=
| Guarded (sc : nat)
| Direct (unsubscribe : oid).

(** The calls the library makes: [Connect fn o] for [fn(o)] from [subscribe],
    [Disconnect fn] for [fn()] from [unsubscribe]. *)
Inductive event :=
| Connect (fn : oid) (o : oid)
| Disconnect (fn : oid).

Record World := mkWorld {
  objects : heap;
  scopes : list scope;
  trace : list event
}.

Inductive result :=
| RUndefined
| RSubscription (s : Subscription).

Inductive completion :=
| Returned (r : result)
| Threw (e : exn)
| Diverged.

Inductive call :=
| Subscribe (this : Observable) (observerOrNext : oid)
| BundledSubscribe (this : BundledObservable) (listener : oid)
| Unsubscribe (s : Subscription).

(** What a connect or disconnect function may do: call the library, or
    throw. *)
Inductive action :=
| Call (c : call)
| ThrowExn (e : exn).

(** The environment.  A function sees the objects and the calls made so far;
    the scopes are private to the library.  [connect_body f o] gives the
    statements [f] runs when called with observer [o] and the value it then
    returns; [disconnect_body f] gives the statements of [f()]. *)
Record Environment := mkEnvironment {
  connect_body : fid -> oid -> heap -> list event -> list action * oid;
  disconnect_body : fid -> heap -> list event -> list action
}.

Section Observable.

Variable env : Environment.

Definition log (e : event) (w : World) : World :=
  {| objects := objects w; scopes := scopes w; trace := trace w ++ [e] |}.

Definition set_objects (h : heap) (w : World) : World :=
  {| objects := h; scopes := scopes w; trace := trace w |}.

(** [let closed = false], in the fresh scope of a [subscribe] call *)
Definition new_scope (d : oid) (w : World) : nat * World :=
  (length (scopes w),
   {| objects := objects w;
      scopes := scopes w ++ [{| disconnect := d; closed := false |}];
      trace := trace w |}).

Fixpoint close (i : nat) (scs : list scope) : list scope :=
  match scs, i with
  | [], _ => []
  | sc :: rest, 0 => {| disconnect := disconnect sc; closed := true |} :: rest
  | sc :: rest, S j => sc :: close j rest
  end.

(** [closed = true] in scope [i] *)
Definition set_closed (i : nat) (w : World) : World :=
  {| objects := objects w; scopes := close i (scopes w); trace := trace w |}.

Definition andThen (x : World * completion) (k : World -> World * completion)
  : World * completion :=
  match x with
  | (w, Returned _) => k w
  | other => other
  end.

Section Methods.

Variable rec : call -> World -> World * completion.

Fixpoint run (acts : list action) (w : World) : World * completion :=
  match acts with
  | [] => (w, Returned RUndefined)
  | ThrowExn e :: _ => (w, Threw e)
  | Call c :: rest => andThen (rec c w) (run rest)
  end.

(** [const x = fn(observer); k x]: the call of a connect function, and what
    follows it *)
Definition call_connect (fn observer : oid) (w : World)
  (k : oid -> World -> World * completion) : World * completion :=
  match callee (objects w) fn with
  | None => (w, Threw TypeError)
  | Some f =>
      let w1 := log (Connect fn observer) w in
      let (acts, ret) := connect_body env f observer (objects w1) (trace w1) in
      andThen (run acts w1) (k ret)
  end.

(** the call [fn()] of a disconnect function *)
Definition call_disconnect (fn : oid) (w : World) : World * completion :=
  match callee (objects w) fn with
  | None => (w, Threw TypeError)
  | Some f =>
      let w1 := log (Disconnect fn) w in
      run (disconnect_body env f (objects w1) (trace w1)) w1
  end.

(** [subscribe] of dist/indefinite-observable.js *)
Definition subscribe (this : Observable) (observerOrNext : oid) (w : World)
  : World * completion :=
  let (observer, h) := wrapWithObserver observerOrNext (objects w) in
  call_connect (_connect this) observer (set_objects h w)
    (fun disconnect w1 =>
       let (sc, w2) := new_scope disconnect w1 in
       (w2, Returned (RSubscription (Guarded sc)))).

(** the [unsubscribe] method of the Subscription that [subscribe] of dist
    returns *)
Definition unsubscribe (sc : nat) (w : World) : World * completion :=
  match nth_error (scopes w) sc with
  | None => (w, Threw TypeError)
  | Some s =>
      if negb (closed s)
      then call_disconnect (disconnect s) (set_closed sc w)
      else (w, Returned RUndefined)
  end.

(** [if(!listener.next){listener={next:listener};}] of the bundled copy *)
Definition bundled_listener (listener : oid) (h : heap) : oid * heap :=
  match get_next h listener with
  | None => alloc {| code := None; next_prop := Some listener |} h
  | Some _ => (listener, h)
  end.

(** [subscribe] of the bundled copy *)
Definition bundled_subscribe (this : BundledObservable) (listener : oid) (w : World)
  : World * completion :=
  let (listener', h) := bundled_listener listener (objects w) in
  call_connect (_creator this) listener' (set_objects h w)
    (fun unsubscribe w1 => (w1, Returned (RSubscription (Direct unsubscribe)))).

Definition dispatch (c : call) (w : World) : World * completion :=
  match c with
  | Subscribe this l => subscribe this l w
  | BundledSubscribe this l => bundled_subscribe this l w
  | Unsubscribe (Guarded sc) => unsubscribe sc w
  | Unsubscribe (Direct fn) => call_disconnect fn w
  end.

End Methods.

(** [fuel] bounds the depth of the calls that connect and disconnect
    functions make back into the library; a run that exhausts it is
    [Diverged]. *)
Fixpoint exec (fuel : nat) (c : call) (w : World) : World * completion :=
  match fuel with
  | 0 => (w, Diverged)
  | S n => dispatch (exec n) c w
  end.

(** the constructor: it stores [connect] and calls nothing *)
Definition new (connect : oid) (w : World) : Observable * World :=
  ({| _connect := connect |}, w).

(** *** Sessions *)

Definition events_since (w w' : World) : list event :=
  skipn (length (trace w)) (trace w').

(** one [subscribe] call per listener, in order *)
Definition subscribe_all (fuel : nat) (this : Observable) (ls : list oid) (w : World)
  : World :=
  fold_left (fun w' l => fst (exec fuel (Subscribe this l) w')) ls w.

(** the observers [wrapWithObserver] hands out for these listeners *)
Fixpoint normalized (ls : list oid) (h : heap) : list oid :=
  match ls with
  | [] => []
  | l :: ls' => fst (wrapWithObserver l h) :: normalized ls' (snd (wrapWithObserver l h))
  end.

(** [n] calls of [s.unsubscribe()] *)
Fixpoint unsubscribe_times (fuel : nat) (s : Subscription) (n : nat) (w : World) : World :=
  match n with
  | 0 => w
  | S m => unsubscribe_times fuel s m (fst (exec fuel (Unsubscribe s) w))
  end.

(** a [subscribe] call [c], then [n] calls of [unsubscribe] on the
    Subscription it returned *)
Definition subscribe_then_unsubscribe (fuel : nat) (c : call) (n : nat) (w : World)
  : World :=
  match exec fuel c w with
  | (w1, Returned (RSubscription s)) => unsubscribe_times fuel s n w1
  | (w1, _) => w1
  end.


(** the function does not call the library *)
Definition calls_nothing (acts : list action) : Prop := forall c, ~ In (Call c) acts.

(** how a body without calls ends *)
Definition ending (acts : list action) : completion :=
  match acts with
  | ThrowExn e :: _ => Threw e
  | _ => Returned RUndefined
  end.



Definition is_closed (i : nat) (w : World) : Prop :=
  exists sc, nth_error (scopes w) i = Some sc /\ closed sc = true.

(** every call takes a world where [P] holds to one where it holds *)
Definition preserves (P : World -> Prop) (rec : call -> World -> World * completion)
  : Prop :=
  forall c w, P w -> P (fst (rec c w)).

End Observable.

End IndefiniteObservable.

(** ** Programs for the Subject: three observers, numbers as values *)
Module SubjectPrograms.
Import Js IndefiniteSubject.

Definition function (f : fid) : object := {| code := Some f; next_prop := None |}.
Definition observer_with (m : oid) : object := {| code := None; next_prop := Some m |}.

(** functions 0, 1, 2 and the observers [A = { next: 0 }], [B = { next: 1 }],
    [C = { next: 2 }] *)
Definition program : heap :=
  [function 0; function 1; function 2; observer_with 0; observer_with 1; observer_with 2].

Definition A : oid := 3.
Definition B : oid := 4.
Definition C : oid := 5.

(** no function does anything *)
Definition silent (f : fid) (v : nat) (w : World nat) : list (action nat) := [].

(** [A.next] unsubscribes [B] *)
Definition unsubscribing (f : fid) (v : nat) (w : World nat) : list (action nat) :=
  match f with
  | 0 => [CallUnsubscribe {| observer := B |}]
  | _ => []
  end.

(** [A.next] subscribes [B], which may be subscribed already *)
Definition resubscribing (f : fid) (v : nat) (w : World nat) : list (action nat) :=
  match f with
  | 0 => [CallSubscribe B]
  | _ => []
  end.

(** [A.next] subscribes [C] *)
Definition subscribing (f : fid) (v : nat) (w : World nat) : list (action nat) :=
  match f with
  | 0 => [CallSubscribe C]
  | _ => []
  end.

(** [A.next(1)] emits 2 *)
Definition echoing (f : fid) (v : nat) (w : World nat) : list (action nat) :=
  match f, v with
  | 0, 1 => [CallNext 2]
  | _, _ => []
  end.

(** [A.next] throws *)
Definition A_throws (f : fid) (v : nat) (w : World nat) : list (action nat) :=
  match f with
  | 0 => [ThrowExn (Raised 7)]
  | _ => []
  end.

(** [B.next] throws *)
Definition B_throws (f : fid) (v : nat) (w : World nat) : list (action nat) :=
  match f with
  | 1 => [ThrowExn (Raised 7)]
  | _ => []
  end.

(** [subject.next(1); subject.next(2)] on a new Subject *)
Definition after_1_and_2 : World nat :=
  fst (run (exec silent 3) [CallNext 1; CallNext 2] (new 0 program)).

(** [subject.subscribe(A); subject.subscribe(B)] on a new Subject *)
Definition with_A_B (body : fid -> nat -> World nat -> list (action nat)) : World nat :=
  fst (run (exec body 3) [CallSubscribe A; CallSubscribe B] (new 0 program)).

Definition with_A_B_C (body : fid -> nat -> World nat -> list (action nat)) : World nat :=
  fst (run (exec body 3) [CallSubscribe A; CallSubscribe B; CallSubscribe C] (new 0 program)).

(** [subscribe(A); subscribe(B)] and [unsubscribe] of [A], on a new Subject
    that has emitted nothing *)
Definition after_unsubscribing_A : World nat :=
  fst (run (exec silent 3)
         [CallSubscribe A; CallSubscribe B; CallUnsubscribe {| observer := A |}]
         (new 0 program)).

(** [subject.next(1)] on a new Subject *)
Definition after_1 (body : fid -> nat -> World nat -> list (action nat)) : World nat :=
  fst (run (exec body 3) [CallNext 1] (new 0 program)).

End SubjectPrograms.

(** ** Programs for the two Observables *)
Module ObservablePrograms.
Import Js IndefiniteObservable.

(** object 0 is the connect function, 1 the disconnect function it returns,
    2 a listener function, 3 a listener function that has a [next] property,
    4 the observer [{ next: 2 }], 5 an object without [next] *)
Definition program : heap :=
  [ {| code := Some 0; next_prop := None |};
    {| code := Some 1; next_prop := None |};
    {| code := Some 2; next_prop := None |};
    {| code := Some 3; next_prop := Some 2 |};
    {| code := None; next_prop := Some 2 |};
    {| code := None; next_prop := None |} ].

Definition start : World := {| objects := program; scopes := []; trace := [] |}.

(** connect does nothing and returns the disconnect function *)
Definition connects (f : fid) (o : oid) (h : heap) (t : list event) : list action * oid :=
  ([], 1).

(** disconnect does nothing *)
Definition disconnects (f : fid) (h : heap) (t : list event) : list action := [].

Definition passive : Environment :=
  {| connect_body := connects; disconnect_body := disconnects |}.

Definition dist_session (l : oid) (n : nat) : World :=
  subscribe_then_unsubscribe passive 2 (Subscribe {| _connect := 0 |} l) n start.

Definition bundled_session (l : oid) (n : nat) : World :=
  subscribe_then_unsubscribe passive 2 (BundledSubscribe {| _creator := 0 |} l) n start.

End ObservablePrograms.

(** ** Notions for the Subject's listeners *)
Module SubjectNotions.
Import Js IndefiniteSubject.

Section Notions.

Variable value : Type.

(** what [subscribe] replays in world [w]: the cached value, once there is one *)
Definition replay (w : World value) : list value :=
  if _hasStarted (subject w) then [_lastValue (subject w)] else [].

(** the world [subscribe] leaves when it registered [obs] (with the objects
    [h] the adapter left) and the replay call, if any, returned at once *)
Definition subscribed (obs : oid) (h : heap) (w : World value) : World value :=
  let w2 := set_observers (Set_add (_observers (subject w)) obs) (set_objects h w) in
  if _hasStarted (subject w) then log (Deliver obs (_lastValue (subject w))) w2 else w2.

End Notions.

Arguments replay {value} w.
Arguments subscribed {value} obs h w.

End SubjectNotions.


(** ** Programs for the Subscriptions of dist *)
Module ObservableFaults.
Import Js IndefiniteObservable ObservablePrograms.

(** the disconnect function throws *)
Definition throws (f : fid) (h : heap) (t : list event) : list action :=
  [ThrowExn (Raised 7)].

Definition faulty : Environment :=
  {| connect_body := connects; disconnect_body := throws |}.

(** the disconnect function calls [unsubscribe] on its own Subscription,
    twice *)
Definition unsubscribes_itself (f : fid) (h : heap) (t : list event) : list action :=
  repeat (Call (Unsubscribe (Guarded 0))) 2.

Definition reentrant : Environment :=
  {| connect_body := connects; disconnect_body := unsubscribes_itself |}.

(** connect returns object 5, which is not a function *)
Definition returns_no_function (f : fid) (o : oid) (h : heap) (t : list event)
  : list action * oid := ([], 5).

Definition careless : Environment :=
  {| connect_body := returns_no_function; disconnect_body := disconnects |}.

(** [observable.subscribe(listener)] on the start world *)
Definition subscribed_once (env : Environment) : World :=
  fst (exec env 1 (Subscribe {| _connect := 0 |} 2) start).

(** two subscriptions of the same Observable *)
Definition subscribed_twice (env : Environment) : World :=
  subscribe_all env 1 {| _connect := 0 |} [2; 4] start.

End ObservableFaults.

(** ** The interoperability tag

    Both copies install a method that returns the receiver under the
    property key that other libraries look up to recognise an observable.
    dist computes the key in the initializer of [$observable]; the bundle
    takes it from its copy of symbol-observable ([lib/index.js] chooses the
    root object, [lib/ponyfill.js] computes the key).

    A realm is described by what the code reads of it: which of the global
    names are defined (each, when defined, an object), and the function in
    the [Symbol] property of an object.  Such a function is addressed by a
    number, since several roots share one function; calling it creates a
    symbol that did not exist before, as the native [Symbol] does. *)
Module SymbolObservable.
Import String.StringSyntax.

Local Open Scope string_scope.

(** a property key *)
Inductive key :=
| Sym (n : nat)                 (* the [n]-th symbol created *)
| Str (s : String.string).

(** truthiness of a key read as a value: only the empty string is falsy *)
Definition truthy (k : key) : bool :=
  match k with
  | Str String.EmptyString => false
  | _ => true
  end.

(** a root object; [Symbol] is the function in [root.Symbol], [None] when
    [typeof root.Symbol] is not ['function'] *)
Record root := mkRoot { Symbol : option nat }.

(** the global names the code tests with [typeof]; [None]: undefined *)
Record Realm := mkRealm {
  self : option root;
  window : option root;
  global : option root;
  module : option root;
  this : root                   (* [Function('return this')()] *)
}.

(** [observable f]: the [observable] property of [Symbol] function [f];
    [created]: how many symbols exist; [result]: the global variable
    [result], [None] when no such binding exists *)
Record Store := mkStore {
  observable : nat -> option key;
  created : nat;
  result : option (option key)
}.

(** [Symbol.observable], when it is truthy *)
Definition read_observable (st : Store) (f : nat) : option key :=
  match observable st f with
  | Some k => if truthy k then Some k else None
  | None => None
  end.

(** [Symbol('observable')] *)
Definition new_symbol (st : Store) : key * Store :=
  (Sym (created st),
   {| observable := observable st; created := S (created st); result := result st |}).

(** [Symbol.observable = k] *)
Definition set_observable (f : nat) (k : key) (st : Store) : Store :=
  {| observable := fun g => if g =? f then Some k else observable st g;
     created := created st;
     result := result st |}.

(** [symbolObservablePonyfill(root)] of [lib/ponyfill.js]; its [result] is a
    local variable *)
Definition symbolObservablePonyfill (r : root) (st : Store) : key * Store :=
  match Symbol r with
  | Some f =>
      match read_observable st f with
      | Some k => (k, st)
      | None =>
          let (k, st1) := new_symbol st in
          (k, set_observable f k st1)
      end
  | None => (Str "@@observable", st)
  end.

(** the variable [global] of the bundle's outer function:
    [window || self || {}] *)
Definition bundle_global (rl : Realm) : root :=
  match window rl with
  | Some o => o
  | None =>
      match self rl with
      | Some o => o
      | None => {| Symbol := None |}
      end
  end.

(** the root that [lib/index.js] chooses inside the bundle.  Its [global]
    is the variable above, which is always defined, so the tests of
    [module] and of [Function('return this')()] are never reached. *)
Definition bundle_root (rl : Realm) : root :=
  match self rl with
  | Some o => o
  | None =>
      match window rl with
      | Some o => o
      | None => bundle_global rl
      end
  end.

(** the key of the bundle: [exports['default']] of [lib/index.js] *)
Definition bundle_observable (rl : Realm) (st : Store) : key * Store :=
  symbolObservablePonyfill (bundle_root rl) st.

(** the root that the initializer of dist chooses *)
Definition dist_root (rl : Realm) : root :=
  match self rl with
  | Some o => o
  | None =>
      match window rl with
      | Some o => o
      | None =>
          match global rl with
          | Some o => o
          | None =>
              match module rl with
              | Some o => o
              | None => this rl
              end
          end
      end
  end.

(** [result = k] in dist.  The file is strict code and declares no
    [result]: the assignment writes the global variable when there is one
    and throws a ReferenceError ([None]) when there is none. *)
Definition assign_result (k : key) (st : Store) : option Store :=
  match result st with
  | Some _ =>
      Some {| observable := observable st; created := created st; result := Some (Some k) |}
  | None => None
  end.

(** the initializer of [$observable] in dist; [None]: it threw the
    ReferenceError *)
Definition dist_observable (rl : Realm) (st : Store) : option key * Store :=
  match Symbol (dist_root rl) with
  | Some f =>
      match read_observable st f with
      | Some k =>
          match assign_result k st with
          | Some st1 => (Some k, st1)
          | None => (None, st)
          end
      | None =>
          let (k, st1) := new_symbol st in
          match assign_result k st1 with
          | Some st2 => (Some k, set_observable f k st2)
          | None => (None, st1)
          end
      end
  | None =>
      match assign_result (Str "@@observable") st with
      | Some st1 => (Some (Str "@@observable"), st1)
      | None => (None, st)
      end
  end.

(** example realms: a browser window, a worker, Node, and a store in which
    [Symbol] function 0 has no [observable] yet *)
Definition browser : Realm :=
  {| self := Some {| Symbol := Some 0 |}; window := Some {| Symbol := Some 0 |};
     global := None; module := None; this := {| Symbol := Some 0 |} |}.

Definition node : Realm :=
  {| self := None; window := None;
     global := Some {| Symbol := Some 0 |}; module := Some {| Symbol := None |};
     this := {| Symbol := Some 0 |} |}.

Definition clean : Store :=
  {| observable := fun _ => None; created := 0; result := None |}.

Definition with_result : Store :=
  {| observable := fun _ => None; created := 0; result := Some None |}.

End SymbolObservable.

(** ** The module runtime of the bundle

    The bundle starts with a small module system: [__sb_pundle_register]
    stores a callback under a path, [__sb_pundle_require_module] runs the
    callback of a path the first time it is required and returns the
    module's [exports]; the [__require] of a module is
    [__sb_pundle_require_module] bound to the module's name.

    A callback is named by a [cid]; what it does is given by [body]: it
    requires and registers modules, writes its own [module.exports], or
    throws.  Modules reach the cache through these functions only.  The
    cache is a plain object: besides the registered paths it has the
    property names it inherits.  [inherited] gives those it inherits when
    the bundle starts; of these, [__proto__] holds the prototype object
    itself, so that a [callback] property written on that value becomes one
    more inherited name ([inherits]).  The inherited values, and the
    callbacks, are objects without a [parents] property. *)
Module Pundle.
Import String.StringSyntax.

Definition path := String.string.
Definition cid := nat.

Inductive exn :=
| ModuleNotFound               (* [new Error("Module not found")] *)
| TypeError
| Raised (n : nat).

Section Runtime.

Variable value : Type.
Variable undefined : value.
Variable empty : value.              (* a new object [{}] *)
Variable inherited : path -> bool.

Inductive exported :=
| DefaultExport                      (* [__SB_PUNDLE_DEFAULT_EXPORT] *)
| Exports (v : value).

Record module := mkModule {
  id : path;
  filePath : path;
  callback : cid;
  exports : exported;
  parents : list path
}.

(** [Ran p cb]: the call [module.callback.call(...)] for the module at [p] *)
Inductive event :=
| Ran (p : path) (cb : cid).

(** [cache]: the own properties of [__sb_pundle.cache]; [inherited_callbacks]:
    the [callback] properties written on inherited objects *)
Record World := mkWorld {
  cache : list (path * module);
  inherited_callbacks : list (path * cid);
  trace : list event
}.

Inductive completion :=
| Returned (r : exported)
| Threw (e : exn)
| Diverged.

Inductive call :=
| Require (fromModule request : path)
| Register (filePath : path) (callback : cid).

(** The statements of a callback: a call of [__require] or of
    [__sb_pundle_register]; [SetExports v], a statement after which
    [module.exports] is [v] (an assignment to it, or a write to a property
    of the object it holds); [module.exports = __require(request)]; a
    throw. *)
Inductive action :=
| Call (c : call)
| SetExports (v : value)
| ExportRequired (fromModule request : path)
| Throw (e : exn).

Variable body : cid -> World -> list action.

Fixpoint lookup (p : path) (c : list (path * module)) : option module :=
  match c with
  | [] => None
  | (q, m) :: rest => if String.eqb p q then Some m else lookup p rest
  end.

Fixpoint update (p : path) (f : module -> module) (c : list (path * module))
  : list (path * module) :=
  match c with
  | [] => []
  | (q, m) :: rest =>
      if String.eqb p q then (q, f m) :: rest else (q, m) :: update p f rest
  end.

Definition set_callback (cb : cid) (m : module) : module :=
  {| id := id m; filePath := filePath m; callback := cb;
     exports := exports m; parents := parents m |}.

Definition set_exports (e : exported) (m : module) : module :=
  {| id := id m; filePath := filePath m; callback := callback m;
     exports := e; parents := parents m |}.

(** [module.parents.push(fromModule)] *)
Definition push_parent (fromModule : path) (m : module) : module :=
  {| id := id m; filePath := filePath m; callback := callback m;
     exports := exports m; parents := parents m ++ [fromModule] |}.

Definition set_cache (c : list (path * module)) (w : World) : World :=
  {| cache := c; inherited_callbacks := inherited_callbacks w; trace := trace w |}.

Definition update_module (p : path) (f : module -> module) (w : World) : World :=
  set_cache (update p f (cache w)) w.

Definition log (e : event) (w : World) : World :=
  {| cache := cache w; inherited_callbacks := inherited_callbacks w;
     trace := trace w ++ [e] |}.

(** The names the cache inherits in world [w]: those of [inherited], and
    [callback] once a registration of [__proto__] has written
    [cache.__proto__.callback], which is [Object.prototype.callback]. *)
Definition inherits (w : World) (p : path) : bool :=
  inherited p ||
  (String.eqb p "callback" &&
   existsb (fun pc => String.eqb (fst pc) "__proto__") (inherited_callbacks w)).

(** [__sb_pundle_register(filePath, callback)].  [cache[filePath]] is truthy
    for a registered path and for an inherited name; in the second case the
    callback is written on the inherited object and the cache gets no
    entry. *)
Definition __sb_pundle_register (filePath : path) (callback : cid) (w : World) : World :=
  match lookup filePath (cache w) with
  | Some _ => update_module filePath (set_callback callback) w
  | None =>
      if inherits w filePath
      then {| cache := cache w;
              inherited_callbacks := inherited_callbacks w ++ [(filePath, callback)];
              trace := trace w |}
      else set_cache
             (cache w ++
              [(filePath,
                {| id := filePath; filePath := filePath; callback := callback;
                   exports := DefaultExport; parents := [] |})]) w
  end.

(** [module.parents.indexOf(fromModule) === -1] *)
Definition not_among (fromModule : path) (ps : list path) : bool :=
  negb (existsb (String.eqb fromModule) ps).

(** [module.exports] of the module at [p]; entries are never removed, so the
    module that a call holds is the one the cache has *)
Definition exports_of (p : path) (w : World) : exported :=
  match lookup p (cache w) with
  | Some m => exports m
  | None => DefaultExport
  end.

Definition bind (x : World * completion) (k : exported -> World -> World * completion)
  : World * completion :=
  match x with
  | (w, Returned r) => k r w
  | other => other
  end.

Section Methods.

Variable rec : call -> World -> World * completion.

(** the statements of the callback of the module at [this] *)
Fixpoint run (this : path) (acts : list action) (w : World) : World * completion :=
  match acts with
  | [] => (w, Returned (Exports undefined))
  | Call c :: rest => bind (rec c w) (fun _ => run this rest)
  | SetExports v :: rest => run this rest (update_module this (set_exports (Exports v)) w)
  | ExportRequired fromModule request :: rest =>
      bind (rec (Require fromModule request) w)
        (fun r w1 => run this rest (update_module this (set_exports r) w1))
  | Throw e :: _ => (w, Threw e)
  end.

(** [__sb_pundle_require_module(fromModule, request)] *)
Definition __sb_pundle_require_module (fromModule request : path) (w : World)
  : World * completion :=
  match lookup request (cache w) with
  | None => (w, Threw (if inherits w request then TypeError else ModuleNotFound))
  | Some m =>
      let w1 :=
        if not_among fromModule (parents m) && negb (String.eqb fromModule "$root")
        then update_module request (push_parent fromModule) w
        else w in
      match exports m with
      | DefaultExport =>
          let w2 :=
            log (Ran request (callback m))
              (update_module request (set_exports (Exports empty)) w1) in
          bind (run request (body (callback m) w2) w2)
            (fun _ w3 => (w3, Returned (exports_of request w3)))
      | Exports v => (w1, Returned (Exports v))
      end
  end.

Definition dispatch (c : call) (w : World) : World * completion :=
  match c with
  | Require fromModule request => __sb_pundle_require_module fromModule request w
  | Register filePath callback =>
      (__sb_pundle_register filePath callback w, Returned (Exports undefined))
  end.

End Methods.

(** [fuel] bounds the depth of nested [__require] calls; a run that
    exhausts it is [Diverged]. *)
Fixpoint exec (fuel : nat) (c : call) (w : World) : World * completion :=
  match fuel with
  | 0 => (w, Diverged)
  | S n => dispatch (exec n) c w
  end.

(** [__sb_generate_require(moduleName)]: the [__require] of a module *)
Definition __sb_generate_require (moduleName : path) (request : path) : call :=
  Require moduleName request.

(** the statements of the bundle's outer function, after the runtime *)
Fixpoint script (fuel : nat) (calls : list call) (w : World) : World * completion :=
  match calls with
  | [] => (w, Returned (Exports undefined))
  | c :: rest => bind (exec fuel c w) (fun _ => script fuel rest)
  end.

(** [cache: {}] *)
Definition init : World := {| cache := []; inherited_callbacks := []; trace := [] |}.

(** *** Reading a world *)

(** the paths whose callback ran, in order *)
Definition ran (t : list event) : list path :=
  map (fun e => match e with Ran p _ => p end) t.

(** the module at [p] has run or is running: its [exports] is no longer
    the default *)
Definition loaded (p : path) (w : World) : Prop :=
  exists m v, lookup p (cache w) = Some m /\ exports m = Exports v.

Definition is_default (e : exported) : bool :=
  match e with
  | DefaultExport => true
  | Exports _ => false
  end.

(** how many registered modules have not run *)
Definition unloaded (w : World) : nat :=
  length (filter (fun pm => is_default (exports (snd pm))) (cache w)).

Definition is_require (c : call) : Prop :=
  match c with
  | Require _ _ => True
  | Register _ _ => False
  end.

(** the calls a statement makes satisfy [ok] *)
Definition calls_only (ok : call -> Prop) (a : action) : Prop :=
  match a with
  | Call c => ok c
  | ExportRequired fromModule request => ok (Require fromModule request)
  | SetExports _ => True
  | Throw _ => True
  end.

(** the path is registered *)
Definition registered (p : path) (w : World) : Prop := lookup p (cache w) <> None.

(** a statement that requires a path registered in [w], or writes the
    exports *)
Definition requires_registered (w : World) (a : action) : Prop :=
  match a with
  | Call (Require _ request) => registered request w
  | Call (Register _ _) => False
  | ExportRequired _ request => registered request w
  | SetExports _ => True
  | Throw _ => False
  end.

(** a call other than the registration of [p] *)
Definition registers_other (p : path) (c : call) : Prop :=
  match c with
  | Register q _ => q <> p
  | Require _ _ => True
  end.

(** *** What the proofs speak of *)

(** a call never returns the default export *)
Definition sound (rec : call -> World -> World * completion) : Prop :=
  forall c w, snd (rec c w) <> Returned DefaultExport.

(** every call that satisfies [ok] takes a world where [P] holds to one
    where it holds *)
Definition preserves (P : World -> Prop) (ok : call -> Prop)
  (rec : call -> World -> World * completion) : Prop :=
  forall c w, ok c -> P w -> P (fst (rec c w)).

(** every module that ran is started, and none ran twice *)
Definition ran_once (w : World) : Prop :=
  NoDup (ran (trace w)) /\ forall p, In p (ran (trace w)) -> loaded p w.

End Runtime.

Arguments sound {value} rec.
Arguments preserves {value} P ok rec.
Arguments ran_once {value} w.
Arguments DefaultExport {value}.
Arguments Exports {value} v.
Arguments Returned {value} r.
Arguments Threw {value} e.
Arguments Diverged {value}.
Arguments Call {value} c.
Arguments SetExports {value} v.
Arguments ExportRequired {value} fromModule request.
Arguments Throw {value} e.
Arguments init {value}.
Arguments ran t : clear implicits.
Arguments is_require c : clear implicits.

End Pundle.

(** ** Programs for the module runtime

    Values are numbers: 0 is [undefined], 1 the empty object, the others
    name the objects that callbacks export. *)
Module PundlePrograms.
Import String.StringSyntax Pundle.

Local Open Scope string_scope.

(** the property names of [Object.prototype], which the cache inherits *)
Definition Object_prototype (p : path) : bool :=
  existsb (String.eqb p)
    ["constructor"; "hasOwnProperty"; "isPrototypeOf"; "propertyIsEnumerable";
     "toLocaleString"; "toString"; "valueOf"; "__proto__";
     "__defineGetter__"; "__defineSetter__"; "__lookupGetter__"; "__lookupSetter__"].

Definition index_ts : path := "$root/index.ts".
Definition symbol_observable : path := "$root/../node_modules/symbol-observable/index.js".
Definition lib_index : path := "$root/../node_modules/symbol-observable/lib/index.js".
Definition lib_ponyfill : path := "$root/../node_modules/symbol-observable/lib/ponyfill.js".

(** the four callbacks of the bundle, as far as the runtime sees them:
    [index.ts] requires symbol-observable and exports the class (11),
    [index.js] exports what [lib/index.js] exports, [lib/index.js] requires
    the ponyfill and exports the key (21), [lib/ponyfill.js] exports the
    function (31) *)
Definition bundle_body (cb : cid) (w : World nat) : list (action nat) :=
  match cb with
  | 0 => [Call (__sb_generate_require index_ts symbol_observable);
          SetExports 10; SetExports 11]
  | 1 => [ExportRequired symbol_observable lib_index]
  | 2 => [SetExports 20; Call (__sb_generate_require lib_index lib_ponyfill);
          SetExports 21]
  | 3 => [SetExports 30; SetExports 31]
  | _ => []
  end.

Definition bundle_modules : list call :=
  [Register index_ts 0; Register symbol_observable 1;
   Register lib_index 2; Register lib_ponyfill 3].

(** the bundle: the registrations, then [__require('$root/index.ts')] *)
Definition bundle : list call :=
  app bundle_modules [__sb_generate_require "$root" index_ts].

(** the bundle, and then a registration under the name [__proto__] *)
Definition bundle_then_proto : list call :=
  app bundle [Register "__proto__" 4].

(** the world when the four modules are registered *)
Definition bundle_registered : World nat :=
  fst (script nat 0 1 Object_prototype bundle_body 1 bundle_modules init).

(** two modules that require each other *)
Definition circular_body (cb : cid) (w : World nat) : list (action nat) :=
  match cb with
  | 0 => [SetExports 5; Call (Require "a" "b"); SetExports 6]
  | 1 => [Call (Require "b" "a"); SetExports 7]
  | _ => []
  end.

Definition circular_registered : World nat :=
  fst (script nat 0 1 Object_prototype circular_body 1
         [Register "a" 0; Register "b" 1] init).

(** a module that throws after its first export *)
Definition failing_body (cb : cid) (w : World nat) : list (action nat) :=
  match cb with
  | 0 => [SetExports 5; Throw (Raised 7); SetExports 6]
  | _ => []
  end.

Definition failing_registered : World nat :=
  fst (script nat 0 1 Object_prototype failing_body 1 [Register "a" 0] init).

End PundlePrograms.

(** ** Facts about [Set] and about lists *)
Module SetFacts.
Import Js.

Lemma members_app s t : members (s ++ t) = members s ++ members t.
Proof.
  induction s as [| [x |] s IH]; simpl; [reflexivity | now rewrite IH | exact IH].
Qed.

Lemma members_In s x : In x (members s) <-> In (Some x) s.
Proof.
  induction s as [| [y |] s IH]; simpl.
  - tauto.
  - rewrite IH. split; intros [H | H]; auto; left; congruence.
  - rewrite IH. split; [auto | intros [H | H]; [discriminate | exact H]].
Qed.

Lemma Set_has_In s x : Set_has s x = true <-> In x (members s).
Proof.
  unfold Set_has. rewrite existsb_exists, members_In. split.
  - intros ([y |] & Hin & Heq); simpl in Heq; [| discriminate].
    apply Nat.eqb_eq in Heq. now subst.
  - intros Hin. exists (Some x). split; [exact Hin | apply Nat.eqb_refl].
Qed.

Lemma Set_add_present s x : In x (members s) -> Set_add s x = s.
Proof.
  intros H. unfold Set_add. apply Set_has_In in H. now rewrite H.
Qed.

Lemma Set_add_In s x y : In y (members (Set_add s x)) <-> y = x \/ In y (members s).
Proof.
  unfold Set_add. destruct (Set_has s x) eqn:E.
  - apply Set_has_In in E. split; [auto | intros [-> | H]; assumption].
  - rewrite members_app, in_app_iff. simpl. intuition.
Qed.

Lemma Set_add_NoDup s x : NoDup (members s) -> NoDup (members (Set_add s x)).
Proof.
  intros H. unfold Set_add. destruct (Set_has s x) eqn:E; [exact H |].
  rewrite members_app. simpl.
  assert (Hx : ~ In x (members s)).
  { intros Hin. apply Set_has_In in Hin. congruence. }
  clear E. induction (members s) as [| y l IH]; simpl.
  - constructor; [tauto | constructor].
  - inversion H; subst. constructor.
    + rewrite in_app_iff. simpl in *. intuition.
    + apply IH; [assumption | simpl in Hx; tauto].
Qed.

Lemma Set_delete_members s x :
  members (Set_delete s x) = filter (fun y => negb (x =? y)) (members s).
Proof.
  induction s as [| [y |] s IH]; simpl; [reflexivity | | exact IH].
  destruct (x =? y); simpl; now rewrite IH.
Qed.

Lemma Set_delete_In s x y : In y (members (Set_delete s x)) <-> In y (members s) /\ y <> x.
Proof.
  rewrite Set_delete_members, filter_In, negb_true_iff, Nat.eqb_neq.
  intuition.
Qed.

Lemma Set_delete_NoDup s x : NoDup (members s) -> NoDup (members (Set_delete s x)).
Proof.
  intros H. rewrite Set_delete_members. now apply NoDup_filter.
Qed.

Lemma Set_delete_length s x : length (Set_delete s x) = length s.
Proof. apply length_map. Qed.

(** *** Reading a list from a position *)

Lemma skipn_cons_nth_error {A} (l : list A) i a rest :
  skipn i l = a :: rest -> nth_error l i = Some a /\ skipn (S i) l = rest.
Proof.
  revert i; induction l as [| b l IH]; intros [| i]; simpl; intros H;
    try discriminate.
  - inversion H; subst. split; reflexivity.
  - apply IH in H. exact H.
Qed.

End SetFacts.

(** ** Theory of the Subject *)
Module SubjectTheory.
Import Js SetFacts IndefiniteSubject.

Section Theory.

Variable value : Type.
Variable undefined : value.
Variable body : fid -> value -> World value -> list (action value).

Implicit Types w : World value.
Implicit Types rec : call value -> World value -> World value * completion.
Implicit Types acts : list (action value).
Implicit Types t : list (event value).
Implicit Types v : value.

(** *** More fuel never changes a run that ended *)

Lemma andThen_inv (x : World value * completion) k w' r :
  andThen x k = (w', r) ->
  (exists w1 r1, x = (w1, Returned r1) /\ k w1 = (w', r)) \/
  (x = (w', r) /\ forall r1, r <> Returned r1).
Proof.
  destruct x as [w1 [r1 | e | ]]; simpl; intros H.
  - left; eauto.
  - right; inversion H; subst; split; [reflexivity | discriminate].
  - right; inversion H; subst; split; [reflexivity | discriminate].
Qed.

Lemma run_extends rec1 rec2 :
  extends rec1 rec2 ->
  forall acts w w' r, run rec1 acts w = (w', r) -> ended r -> run rec2 acts w = (w', r).
Proof.
  intros Hext acts; induction acts as [| a rest IH]; intros w w' r H Hr; simpl in *.
  - exact H.
  - destruct (call_of a) as [e | c]; [exact H |].
    apply andThen_inv in H as [(w1 & r1 & H1 & H2) | (H1 & H2)].
    + rewrite (Hext _ _ _ _ H1) by discriminate. simpl. now apply IH.
    + rewrite (Hext _ _ _ _ H1 Hr).
      destruct r as [r1 | e | ]; simpl.
      * now elim (H2 r1).
      * reflexivity.
      * now elim Hr.
Qed.

Lemma andThen_extends (x x' : World value * completion) k k' w' r :
  (forall w1 r1, x = (w1, r1) -> ended r1 -> x' = (w1, r1)) ->
  (forall w1 w2 r2, k w1 = (w2, r2) -> ended r2 -> k' w1 = (w2, r2)) ->
  andThen x k = (w', r) -> ended r -> andThen x' k' = (w', r).
Proof.
  intros Hx Hk H Hr.
  apply andThen_inv in H as [(w1 & r1 & H1 & H2) | (H1 & H2)].
  - rewrite (Hx _ _ H1) by discriminate. simpl. now apply Hk.
  - rewrite (Hx _ _ H1 Hr).
    destruct r as [r1 | e | ]; simpl; [now elim (H2 r1) | reflexivity | now elim Hr].
Qed.

Lemma invoke_next_extends rec1 rec2 :
  extends rec1 rec2 ->
  forall o v w w' r,
    invoke_next body rec1 o v w = (w', r) -> ended r -> invoke_next body rec2 o v w = (w', r).
Proof.
  intros Hext o v w w' r; unfold invoke_next.
  destruct (method_next (objects w) o); [apply run_extends, Hext | trivial].
Qed.

Lemma dispatch_extends rec1 rec2 :
  extends rec1 rec2 -> extends (dispatch body rec1) (dispatch body rec2).
Proof.
  intros Hext [v | l | s | i v] w w' r; simpl.
  - apply Hext.
  - unfold subscribe. destruct (wrapWithObserver l (objects w)) as [obs h].
    apply andThen_extends; [| trivial].
    destruct (_hasStarted _); [apply invoke_next_extends, Hext | trivial].
  - trivial.
  - unfold Set_forEach.
    destruct (nth_error (_observers (subject w)) i) as [[o |] |]; [| apply Hext | trivial].
    apply andThen_extends; [apply invoke_next_extends, Hext | intros w1; apply Hext].
Qed.

Lemma exec_mono n m : n <= m -> extends (exec body n) (exec body m).
Proof.
  revert m; induction n as [| n IH]; intros m Hle.
  - intros c w w' r H Hr; simpl in H; inversion H; subst; now elim Hr.
  - destruct m as [| m]; [lia |].
    simpl. apply dispatch_extends, IH. lia.
Qed.

(** *** What every run preserves

    [R] relates a world to a later one; [ok] tells which statements the
    callbacks run.  If the methods' own steps respect [R], so does every run
    of them, whatever the callbacks do within [ok]. *)
Section Preservation.

Variable R : World value -> World value -> Prop.
Variable ok : call value -> Prop.

Hypothesis R_refl : forall w, R w w.
Hypothesis R_trans : forall a b c, R a b -> R b c -> R a c.
Hypothesis R_emit : forall v w, ok (Next v) -> R w (emitting v w).
Hypothesis R_deliver : forall o v w,
  In o (members (_observers (subject w))) -> R w (log (Deliver o v) w).
Hypothesis R_add : forall l w, ok (Subscribe l) ->
  R w (set_observers
         (Set_add (_observers (subject w)) (fst (wrapWithObserver l (objects w))))
         (set_objects (snd (wrapWithObserver l (objects w))) w)).
Hypothesis R_delete : forall s w, ok (Unsubscribe s) ->
  R w (set_observers (Set_delete (_observers (subject w)) (observer s)) w).
Hypothesis ok_forEach : forall i v, ok (ForEachFrom i v).
Hypothesis ok_body : forall f v w a c, In a (body f v w) -> call_of a = inr c -> ok c.

Lemma andThen_respects (x : World value * completion) k w :
  R w (fst x) -> (forall w1, R w w1 -> R w (fst (k w1))) -> R w (fst (andThen x k)).
Proof.
  destruct x as [w1 [r | e | ]]; simpl; auto.
Qed.

Lemma run_respects rec :
  respects R ok rec ->
  forall acts w,
    (forall a c, In a acts -> call_of a = inr c -> ok c) -> R w (fst (run rec acts w)).
Proof.
  intros Hrec acts; induction acts as [| a rest IH]; intros w Hok; simpl.
  - apply R_refl.
  - destruct (call_of a) as [e | c] eqn:E; simpl; [apply R_refl |].
    apply andThen_respects.
    + apply Hrec. apply (Hok a); [now left | exact E].
    + intros w1 H1. eapply R_trans; [exact H1 |].
      apply IH. intros a' c' Hin. apply Hok. now right.
Qed.

Lemma invoke_next_respects rec :
  respects R ok rec ->
  forall o v w,
    In o (members (_observers (subject w))) -> R w (fst (invoke_next body rec o v w)).
Proof.
  intros Hrec o v w Hin; unfold invoke_next.
  destruct (method_next (objects w) o) as [f |]; simpl; [| apply R_refl].
  eapply R_trans; [apply (R_deliver o v w Hin) |].
  apply run_respects; [exact Hrec |]. intros a c. apply ok_body.
Qed.

Lemma dispatch_respects rec : respects R ok rec -> respects R ok (dispatch body rec).
Proof.
  intros Hrec [v | l | s | i v] w Hok; simpl.
  - unfold next. eapply R_trans; [apply (R_emit v w Hok) |]. apply Hrec, ok_forEach.
  - unfold subscribe. pose proof (R_add l w Hok) as Hadd.
    destruct (wrapWithObserver l (objects w)) as [obs h]; simpl in Hadd.
    apply andThen_respects; [| intros w1 H1; exact H1].
    destruct (_hasStarted _); simpl; [| exact Hadd].
    eapply R_trans; [exact Hadd |]. apply invoke_next_respects; [exact Hrec |].
    simpl. apply Set_add_In. now left.
  - now apply R_delete.
  - unfold Set_forEach.
    destruct (nth_error (_observers (subject w)) i) as [[o |] |] eqn:Hnth; simpl.
    + apply andThen_respects.
      { apply invoke_next_respects; [exact Hrec |].
        apply members_In. eapply nth_error_In, Hnth. }
      intros w1 H1. eapply R_trans; [exact H1 |]. apply Hrec, ok_forEach.
    + apply Hrec, ok_forEach.
    + apply R_refl.
Qed.

Lemma exec_respects fuel : respects R ok (exec body fuel).
Proof.
  induction fuel as [| n IH]; simpl.
  - intros c w _; apply R_refl.
  - now apply dispatch_respects.
Qed.

End Preservation.

(** *** The trace only grows *)

Lemma grows_refl w : grows w w.
Proof. exists []. now rewrite app_nil_r. Qed.

Lemma grows_trans (a b c : World value) : grows a b -> grows b c -> grows a c.
Proof.
  intros [t1 H1] [t2 H2]. exists (t1 ++ t2). now rewrite H2, H1, app_assoc.
Qed.

Lemma exec_grows fuel c w : grows w (fst (exec body fuel c w)).
Proof.
  apply (exec_respects grows always grows_refl grows_trans); try (intros; exact I).
  - intros v w0 _. exists [Emit v]. reflexivity.
  - intros o v w0 _. exists [Deliver o v]. reflexivity.
  - intros l w0 _. exists []. simpl. now rewrite app_nil_r.
  - intros s w0 _. exists []. simpl. now rewrite app_nil_r.
Qed.

Lemma run_grows fuel acts w : grows w (fst (run (exec body fuel) acts w)).
Proof.
  apply (run_respects grows always grows_refl grows_trans).
  - intros c w0 _. apply exec_grows.
  - intros; exact I.
Qed.

Lemma events_since_app w w' t : trace w' = trace w ++ t -> events_since w w' = t.
Proof.
  intros H. unfold events_since. rewrite H.
  rewrite skipn_app, skipn_all, Nat.sub_diag. reflexivity.
Qed.

Lemma events_since_trans (a b c : World value) :
  grows a b -> grows b c -> events_since a c = events_since a b ++ events_since b c.
Proof.
  intros [t1 H1] [t2 H2].
  rewrite (events_since_app _ _ _ H1), (events_since_app _ _ _ H2).
  apply events_since_app. now rewrite H2, H1, app_assoc.
Qed.

Lemma deliveries_app o t u : deliveries o (t ++ u) = deliveries o t ++ deliveries o u.
Proof.
  induction t as [| [v | o' v] t IH]; simpl; [reflexivity | exact IH |].
  destruct (o =? o'); simpl; now rewrite IH.
Qed.

Lemma notified_app t u : notified (t ++ u) = notified t ++ notified u.
Proof.
  induction t as [| [v | o' v] t IH]; simpl; [reflexivity | exact IH | now rewrite IH].
Qed.

Lemma last_emitted_snoc t e : last_emitted (t ++ [e]) = latest (last_emitted t) e.
Proof. unfold last_emitted. now rewrite fold_left_app. Qed.

(** *** What holds of every Subject *)

Lemma reachable_inv (P : World value -> Prop) :
  (forall h, P (new undefined h)) ->
  (forall v w, P w -> P (emitting v w)) ->
  (forall o v w, P w -> P (log (Deliver o v) w)) ->
  (forall l w, P w ->
     P (set_observers
          (Set_add (_observers (subject w)) (fst (wrapWithObserver l (objects w))))
          (set_objects (snd (wrapWithObserver l (objects w))) w))) ->
  (forall s w, P w ->
     P (set_observers (Set_delete (_observers (subject w)) (observer s)) w)) ->
  forall w, reachable undefined body w -> P w.
Proof.
  intros Hnew Hemit Hdel Hadd Hrem w Hw.
  induction Hw as [h | fuel acts w Hw IH]; [apply Hnew |].
  revert IH.
  apply (run_respects (fun a b => P a -> P b) always); auto.
  - intros c w0 _.
    apply (exec_respects (fun a b => P a -> P b) always); auto; intros; exact I.
  - intros; exact I.
Qed.

(** the Set holds no observer twice *)
Lemma reachable_NoDup w : reachable undefined body w -> NoDup (members (_observers (subject w))).
Proof.
  apply (reachable_inv (fun w => NoDup (members (_observers (subject w))))); simpl;
    intros; auto.
  - constructor.
  - now apply Set_add_NoDup.
  - now apply Set_delete_NoDup.
Qed.

Lemma reachable_coherent w : reachable undefined body w -> coherent w.
Proof.
  apply (reachable_inv coherent); unfold coherent; simpl; intros; auto.
  - now rewrite last_emitted_snoc.
  - now rewrite last_emitted_snoc.
Qed.

(** *** A delivery pass over observers that do nothing to the Subject *)

Lemma delivered_cons o os v w :
  delivered (o :: os) v w = delivered os v (log (Deliver o v) w).
Proof. reflexivity. Qed.

Lemma delivered_objects os v w : objects (delivered os v w) = objects w.
Proof.
  revert w; induction os as [| o os IH]; intros w; [reflexivity |].
  rewrite delivered_cons, IH. reflexivity.
Qed.

Lemma delivered_subject os v w : subject (delivered os v w) = subject w.
Proof.
  revert w; induction os as [| o os IH]; intros w; [reflexivity |].
  rewrite delivered_cons, IH. reflexivity.
Qed.

Lemma delivered_trace os v w :
  trace (delivered os v w) = trace w ++ map (fun o => Deliver o v) os.
Proof.
  revert w; induction os as [| o os IH]; intros w.
  - simpl. now rewrite app_nil_r.
  - rewrite delivered_cons, IH. simpl. now rewrite <- app_assoc.
Qed.

Lemma invoke_next_quiet rec o v w :
  quiet body (objects w) o ->
  invoke_next body rec o v w = (log (Deliver o v) w, Returned RUndefined).
Proof.
  intros (f & Hf & Hq). unfold invoke_next. rewrite Hf. simpl. now rewrite Hq.
Qed.

(** the pass walks a run of quiet observers, one unit of fuel per entry *)
Lemma forEach_quiet_prefix pre : forall i w rest v fuel,
  skipn i (_observers (subject w)) = pre ++ rest ->
  Forall (quiet body (objects w)) (members pre) ->
  exec body (length pre + fuel) (ForEachFrom i v) w =
  exec body fuel (ForEachFrom (i + length pre) v) (delivered (members pre) v w).
Proof.
  induction pre as [| e pre IH]; intros i w rest v fuel Hskip Hq; simpl.
  - now rewrite Nat.add_0_r.
  - simpl in Hskip. apply skipn_cons_nth_error in Hskip as [Hnth Hskip].
    unfold Set_forEach. rewrite Hnth.
    replace (i + S (length pre)) with (S i + length pre) by lia.
    destruct e as [o |]; simpl in Hq |- *.
    + inversion Hq as [| ? ? Ho Hq']; subst.
      rewrite (invoke_next_quiet _ _ _ _ Ho). simpl.
      now apply (IH (S i) _ rest).
    + now apply (IH (S i) _ rest).
Qed.

Lemma forEach_quiet i v w fuel :
  Forall (quiet body (objects w)) (members (skipn i (_observers (subject w)))) ->
  length (skipn i (_observers (subject w))) < fuel ->
  exec body fuel (ForEachFrom i v) w =
  (delivered (members (skipn i (_observers (subject w)))) v w, Returned RUndefined).
Proof.
  intros Hq Hfuel.
  set (pre := skipn i (_observers (subject w))) in *.
  replace fuel with (length pre + S (fuel - length pre - 1)) by lia.
  rewrite (forEach_quiet_prefix pre i w [] v); [| now rewrite app_nil_r | exact Hq].
  simpl. unfold Set_forEach. rewrite delivered_subject.
  rewrite (proj2 (nth_error_None _ _)); [reflexivity |].
  subst pre. rewrite length_skipn.
  destruct (Nat.le_gt_cases (length (_observers (subject w))) i); lia.
Qed.

Lemma next_quiet v w fuel :
  Forall (quiet body (objects w)) (members (_observers (subject w))) ->
  length (_observers (subject w)) + 1 < fuel ->
  exec body fuel (Next v) w =
  (delivered (members (_observers (subject w))) v (emitting v w), Returned RUndefined).
Proof.
  intros Hq Hfuel. destruct fuel as [| n]; [lia |]. simpl. unfold next.
  change (set_lastValue v (set_hasStarted true (log (Emit v) w))) with (emitting v w).
  rewrite forEach_quiet; simpl; [reflexivity | exact Hq | lia].
Qed.

Lemma deliveries_map_other o os v :
  ~ In o os -> deliveries o (map (fun p => Deliver p v) os) = [].
Proof.
  induction os as [| p os IH]; simpl; intros H; [reflexivity |].
  destruct (Nat.eqb_spec o p) as [-> | _]; [tauto |]. apply IH. tauto.
Qed.

Lemma deliveries_map_once o os v :
  NoDup os -> In o os -> deliveries o (map (fun p => Deliver p v) os) = [v].
Proof.
  induction os as [| p os IH]; simpl; intros Hnd Hin; [tauto |].
  inversion Hnd as [| ? ? Hp Hnd']; subst.
  destruct (Nat.eqb_spec o p) as [-> | Hne].
  - now rewrite deliveries_map_other.
  - destruct Hin as [-> | Hin]; [tauto | now apply IH].
Qed.

Lemma fst_andThen_same (x : World value * completion) (k : World value -> completion) :
  fst (andThen x (fun w => (w, k w))) = fst x.
Proof. destruct x as [w [r | e | ]]; reflexivity. Qed.

(** *** Replay on subscribe *)

Lemma never_emitted t : (forall v, ~ In (Emit v) t) -> last_emitted t = None.
Proof.
  induction t as [| e t IH] using rev_ind; intros H; [reflexivity |].
  rewrite last_emitted_snoc.
  destruct e as [x | o x]; simpl.
  - elim (H x). apply in_or_app. right. now left.
  - apply IH. intros y Hy. apply (H y). apply in_or_app. now left.
Qed.

(** C8: a Subject on which [next] was never called delivers nothing to a
    new subscriber.  In every state a Subject can reach without a [next]
    call (the new Subject, and what subscribing and unsubscribing make of
    it), [subscribe] registers the observer, calls nothing and returns the
    Subscription. *)
Theorem fresh_subject_replays_nothing w l fuel :
  reachable undefined body w ->
  (forall v, ~ In (Emit v) (trace w)) ->
  exec body (S fuel) (Subscribe l) w =
    (set_observers
       (Set_add (_observers (subject w)) (fst (wrapWithObserver l (objects w))))
       (set_objects (snd (wrapWithObserver l (objects w))) w),
     Returned (RSubscription {| observer := fst (wrapWithObserver l (objects w)) |})) /\
  events_since w (fst (exec body (S fuel) (Subscribe l) w)) = [] /\
  In (fst (wrapWithObserver l (objects w)))
     (members (_observers (subject (fst (exec body (S fuel) (Subscribe l) w))))).
Proof.
  intros Hreach Hnever.
  pose proof (reachable_coherent w Hreach) as Hc. unfold coherent in Hc.
  rewrite (never_emitted _ Hnever) in Hc.
  assert (Hstart : _hasStarted (subject w) = false)
    by (destruct (_hasStarted (subject w)); [discriminate | reflexivity]).
  assert (E : exec body (S fuel) (Subscribe l) w =
    (set_observers
       (Set_add (_observers (subject w)) (fst (wrapWithObserver l (objects w))))
       (set_objects (snd (wrapWithObserver l (objects w))) w),
     Returned (RSubscription {| observer := fst (wrapWithObserver l (objects w)) |}))).
  { simpl. unfold subscribe.
    destruct (wrapWithObserver l (objects w)) as [obs h']. simpl. now rewrite Hstart. }
  rewrite E. split; [reflexivity |]. split.
  - apply events_since_app. simpl. now rewrite app_nil_r.
  - simpl. apply Set_add_In. now left.
Qed.

(** C1: in every state a Subject can reach, if the most recent [next] call
    was [next(v)], then [subscribe] calls the new observer's [next] with
    [v] before anything else happens; when that function does nothing more,
    this one call is all that [subscribe] causes, and it returns the
    Subscription.  No earlier value is replayed. *)
Theorem subscribe_replays_last_emitted w l v obs h f fuel w' r :
  reachable undefined body w ->
  last_emitted (trace w) = Some v ->
  wrapWithObserver l (objects w) = (obs, h) ->
  method_next h obs = Some f ->
  exec body (S fuel) (Subscribe l) w = (w', r) ->
  exists rest,
    events_since w w' = Deliver obs v :: rest /\
    ((forall w1, body f v w1 = []) ->
     rest = [] /\ r = Returned (RSubscription {| observer := obs |})).
Proof.
  intros Hreach Hlast Hwrap Hf Hexec.
  apply reachable_coherent in Hreach. unfold coherent in Hreach.
  rewrite Hlast in Hreach.
  destruct (_hasStarted (subject w)) eqn:Hstarted; [| discriminate].
  inversion Hreach as [Hv]. clear Hreach Hlast. subst v.
  simpl in Hexec. unfold subscribe in Hexec. rewrite Hwrap in Hexec.
  simpl in Hexec. rewrite Hstarted in Hexec.
  unfold invoke_next in Hexec. simpl in Hexec. rewrite Hf in Hexec.
  match type of Hexec with andThen (run _ _ ?w3) _ = _ => set (w0 := w3) in * end.
  destruct (run_grows fuel (body f (_lastValue (subject w)) w0) w0) as [t Ht].
  assert (Hw' : w' = fst (run (exec body fuel) (body f (_lastValue (subject w)) w0) w0)).
  { rewrite <- (fst_andThen_same _ (fun _ => Returned (RSubscription {| observer := obs |}))).
    now rewrite Hexec. }
  exists t. split.
  - apply events_since_app. rewrite Hw', Ht. subst w0. simpl.
    now rewrite <- app_assoc.
  - intros Hquiet. rewrite Hquiet in *. simpl in *.
    inversion Hexec; subst. split; [| reflexivity].
    apply (app_inv_head (trace w0)). now rewrite app_nil_r.
Qed.

(** *** Multicast *)

(** C4, amended: when the registered observers' [next] functions return without
    calling back into the Subject, [subject.next(x)] returns normally after
    calling [next(x)] on every registered observer, in insertion order: each
    of them receives [x] exactly once, none is skipped, none is called
    twice, and nobody else is called. *)
Theorem next_fans_out w x fuel :
  reachable undefined body w ->
  Forall (quiet body (objects w)) (members (_observers (subject w))) ->
  length (_observers (subject w)) + 1 < fuel ->
  exists w',
    exec body fuel (Next x) w = (w', Returned RUndefined) /\
    events_since w w' =
      Emit x :: map (fun o => Deliver o x) (members (_observers (subject w))) /\
    (forall o, In o (members (_observers (subject w))) ->
               deliveries o (events_since w w') = [x]) /\
    (forall o, ~ In o (members (_observers (subject w))) ->
               deliveries o (events_since w w') = []).
Proof.
  intros Hreach Hq Hfuel.
  exists (delivered (members (_observers (subject w))) x (emitting x w)).
  assert (Hev : events_since w (delivered (members (_observers (subject w))) x (emitting x w))
                = Emit x :: map (fun o => Deliver o x) (members (_observers (subject w)))).
  { apply events_since_app. rewrite delivered_trace. simpl. now rewrite <- app_assoc. }
  split; [now apply next_quiet |]. split; [exact Hev |]. rewrite Hev. simpl. split.
  - intros o Ho. apply deliveries_map_once; [now apply reachable_NoDup | exact Ho].
  - intros o Ho. now apply deliveries_map_other.
Qed.

(** a pass that has come to entry [i] goes on from there as a pass begun at
    that entry would *)
Lemma visits_exec n v w0 i w :
  visits body n v w0 i w ->
  forall k w' r,
    exec body (n + k) (ForEachFrom i v) w = (w', r) -> ended r ->
    exec body (n + k + i) (ForEachFrom 0 v) w0 = (w', r).
Proof.
  induction 1 as [| i w Hv IH Hnth | i w o w1 r0 Hv IH Hnth Hcall]; intros k w' r H Hr.
  - now rewrite Nat.add_0_r.
  - replace (n + k + S i) with (n + S k + i) by lia.
    apply IH; [| exact Hr].
    rewrite Nat.add_succ_r. simpl. unfold Set_forEach. now rewrite Hnth.
  - replace (n + k + S i) with (n + S k + i) by lia.
    apply IH; [| exact Hr].
    rewrite Nat.add_succ_r. simpl. unfold Set_forEach. rewrite Hnth.
    rewrite (invoke_next_extends (exec body n) (exec body (n + k))
               (exec_mono n (n + k) (Nat.le_add_r n k)) _ _ _ _ _ Hcall)
      by discriminate.
    exact H.
Qed.

(** C7: when the delivery pass of [subject.next(v)] has come to an observer
    [o] and [o.next(v)] throws [e], [subject.next(v)] ends with that same
    exception, in the very world the throwing call left: the exception is
    not caught, the pass stops there and the entries after [o] are never
    visited. *)
Theorem next_aborts_when_observer_throws w v i wi o e n w' fuel :
  visits body n v (emitting v w) i wi ->
  nth_error (_observers (subject wi)) i = Some (Some o) ->
  invoke_next body (exec body n) o v wi = (w', Threw e) ->
  n + i + 2 <= fuel ->
  exec body fuel (Next v) w = (w', Threw e).
Proof.
  intros Hvisits Hnth Hthrow Hfuel.
  apply (exec_mono (S (n + 1 + i)) fuel); [lia | | discriminate].
  simpl. unfold next.
  change (set_lastValue v (set_hasStarted true (log (Emit v) w))) with (emitting v w).
  apply (visits_exec n v _ i wi Hvisits); [| discriminate].
  rewrite Nat.add_1_r. simpl. unfold Set_forEach. now rewrite Hnth, Hthrow.
Qed.

(** C6: [subscribe] registers the observer before it replays: the replay
    call [observer.next(lastValue)] runs with the observer already in the
    Set.  When that call throws, [subscribe] ends with the same exception,
    in the world the call left, and (unless a callback itself unsubscribes
    it) the observer is still registered. *)
Theorem subscribe_throw_leaves_observer_registered w l obs h fuel w' e :
  wrapWithObserver l (objects w) = (obs, h) ->
  _hasStarted (subject w) = true ->
  (forall f v w0, ~ In (CallUnsubscribe {| observer := obs |}) (body f v w0)) ->
  invoke_next body (exec body fuel) obs (_lastValue (subject w))
    (set_observers (Set_add (_observers (subject w)) obs) (set_objects h w))
    = (w', Threw e) ->
  In obs (members (Set_add (_observers (subject w)) obs)) /\
  exec body (S fuel) (Subscribe l) w = (w', Threw e) /\
  In obs (members (_observers (subject w'))).
Proof.
  intros Hwrap Hstarted Hbody Hreplay.
  assert (Hin : In obs (members (Set_add (_observers (subject w)) obs)))
    by (apply Set_add_In; now left).
  split; [exact Hin |]. split.
  { simpl. unfold subscribe. rewrite Hwrap. simpl. rewrite Hstarted.
    now rewrite Hreplay. }
  pose (R := fun a b : World value =>
    In obs (members (_observers (subject a))) -> In obs (members (_observers (subject b)))).
  pose (ok := fun c : call value => c <> Unsubscribe {| observer := obs |}).
  assert (Hinv : R (set_observers (Set_add (_observers (subject w)) obs) (set_objects h w)) w').
  { replace w' with (fst (invoke_next body (exec body fuel) obs (_lastValue (subject w))
      (set_observers (Set_add (_observers (subject w)) obs) (set_objects h w))))
      by now rewrite Hreplay.
    assert (Hrefl : forall a, R a a) by (intros a Ha; exact Ha).
    assert (Htrans : forall a b c, R a b -> R b c -> R a c) by (unfold R; auto).
    assert (Hdel : forall o v a, In o (members (_observers (subject a))) ->
                                 R a (log (Deliver o v) a))
      by (intros o v a _ Ha; exact Ha).
    assert (Hok : forall f v a act c, In act (body f v a) -> call_of act = inr c -> ok c).
    { intros f v a act c Hact Hc Heq. subst c.
      destruct act as [? | ? | [o] | ?]; simpl in Hc; inversion Hc; subst.
      now apply (Hbody f v a). }
    apply (invoke_next_respects R ok Hrefl Htrans Hdel Hok); [| exact Hin].
    apply (exec_respects R ok Hrefl Htrans); auto.
    - intros v a _ Ha; exact Ha.
    - intros l0 a _ Ha. simpl. apply Set_add_In. now right.
    - intros [o] a Hneq Ha. simpl. apply Set_delete_In. split; [exact Ha |].
      intros ->. now apply Hneq.
    - intros i v. discriminate. }
  apply Hinv. exact Hin.
Qed.

(** *** Re-entrant calls during a pass *)

Lemma among_subscribers_refl (a : World value) : among_subscribers a a.
Proof.
  split; [reflexivity |]. exists []. rewrite app_nil_r. split; [reflexivity |].
  intros o [].
Qed.

Lemma among_subscribers_trans (a b c : World value) :
  among_subscribers a b -> among_subscribers b c -> among_subscribers a c.
Proof.
  intros (H1 & t1 & Ht1 & Hi1) (H2 & t2 & Ht2 & Hi2). split; [congruence |].
  exists (t1 ++ t2). split; [now rewrite Ht2, Ht1, app_assoc |].
  rewrite notified_app. apply incl_app; [exact Hi1 |]. now rewrite <- H1.
Qed.

Section NoResubscription.

Hypothesis body_keeps : forall f v w a, In a (body f v w) -> resubscribes a = false.

Lemma body_keeps_call f v w a c :
  In a (body f v w) -> call_of a = inr c -> keeps_subscribers c.
Proof.
  intros Hin Hc. apply body_keeps in Hin.
  destruct a; simpl in *; inversion Hc; subst; simpl; try exact I; discriminate.
Qed.

Lemma exec_among_subscribers fuel : respects among_subscribers keeps_subscribers (exec body fuel).
Proof.
  apply (exec_respects among_subscribers keeps_subscribers
           among_subscribers_refl among_subscribers_trans).
  - intros v w _. split; [reflexivity |]. exists [Emit v]. split; [reflexivity |].
    intros o [].
  - intros o v w Hin. split; [reflexivity |]. exists [Deliver o v].
    split; [reflexivity |]. intros p [<- | []]. exact Hin.
  - intros l w [].
  - intros s w [].
  - intros i v. exact I.
  - exact body_keeps_call.
Qed.

Lemma invoke_next_among_subscribers fuel o v w :
  In o (members (_observers (subject w))) ->
  among_subscribers w (fst (invoke_next body (exec body fuel) o v w)).
Proof.
  apply (invoke_next_respects among_subscribers keeps_subscribers
           among_subscribers_refl among_subscribers_trans).
  - intros p u a Hin. split; [reflexivity |]. exists [Deliver p u].
    split; [reflexivity |]. intros q [<- | []]. exact Hin.
  - exact body_keeps_call.
  - apply exec_among_subscribers.
Qed.

Lemma invoke_next_returned_first fuel o v w w1 r :
  invoke_next body (exec body fuel) o v w = (w1, Returned r) ->
  exists t, trace w1 = trace w ++ Deliver o v :: t.
Proof.
  unfold invoke_next. destruct (method_next (objects w) o) as [f |]; [| discriminate].
  simpl. intros H.
  destruct (run_grows fuel (body f v (log (Deliver o v) w)) (log (Deliver o v) w)) as [t Ht].
  rewrite H in Ht. simpl in Ht. exists t. now rewrite Ht, <- app_assoc.
Qed.

Lemma nth_error_None_skipn {A} (l : list A) i : nth_error l i = None -> skipn i l = [].
Proof. intros H. apply skipn_all2. now apply nth_error_None. Qed.

Lemma nth_error_Some_skipn {A} (l : list A) i a :
  nth_error l i = Some a -> skipn i l = a :: skipn (S i) l.
Proof.
  revert i; induction l as [| b l IH]; intros [| i] H; simpl in *; try discriminate.
  - now inversion H.
  - now apply IH.
Qed.

(** a pass that returns has called every member it had still to visit *)
Lemma forEach_reaches_all fuel : forall i v w w' r,
  exec body fuel (ForEachFrom i v) w = (w', Returned r) ->
  forall o, In o (members (skipn i (_observers (subject w)))) ->
            In o (notified (events_since w w')).
Proof.
  induction fuel as [| n IH]; intros i v w w' r H o Ho; [discriminate |].
  simpl in H. unfold Set_forEach in H.
  destruct (nth_error (_observers (subject w)) i) as [[p |] |] eqn:Hnth.
  - rewrite (nth_error_Some_skipn _ _ _ Hnth) in Ho. simpl in Ho.
    apply andThen_inv in H as [(w1 & r1 & H1 & H2) | (_ & H2)]; [| now elim (H2 r)].
    assert (Hp : In p (members (_observers (subject w)))).
    { apply members_In. eapply nth_error_In, Hnth. }
    pose proof (invoke_next_among_subscribers n p v w Hp) as (Hsame & t1 & Ht1 & _).
    rewrite H1 in Hsame, Ht1. simpl in Hsame, Ht1.
    assert (G1 : grows w w1) by now exists t1.
    assert (G2 : grows w1 w').
    { replace w' with (fst (exec body n (ForEachFrom (S i) v) w1)) by now rewrite H2.
      apply exec_grows. }
    rewrite (events_since_trans _ _ _ G1 G2), notified_app, in_app_iff.
    destruct Ho as [<- | Ho].
    + left. apply invoke_next_returned_first in H1 as [t Ht].
      rewrite (events_since_app _ _ _ Ht). simpl. now left.
    + right. apply (IH _ _ _ _ _ H2). now rewrite Hsame.
  - rewrite (nth_error_Some_skipn _ _ _ Hnth) in Ho. simpl in Ho.
    now apply (IH _ _ _ _ _ H).
  - rewrite (nth_error_None_skipn _ _ Hnth) in Ho. destruct Ho.
Qed.

(** C3, amended: when no observer callback subscribes or unsubscribes, a
    [next(v)] call that returns leaves the subscriber Set as it was and
    has notified exactly the observers registered when it was called.
    (A callback that subscribes or unsubscribes changes the pass under way:
    [forEach] reads the live Set.) *)
Theorem next_notifies_subscribers_when_none_resubscribes w v fuel w' r :
  exec body fuel (Next v) w = (w', Returned r) ->
  _observers (subject w') = _observers (subject w) /\
  forall o, In o (notified (events_since w w')) <->
            In o (members (_observers (subject w))).
Proof.
  intros H.
  pose proof (exec_among_subscribers fuel (Next v) w I) as (Hsame & t & Ht & Hincl).
  rewrite H in Hsame, Ht. simpl in Hsame, Ht.
  split; [exact Hsame |]. intros o. split.
  - rewrite (events_since_app _ _ _ Ht). apply Hincl.
  - intros Ho. destruct fuel as [| n]; [discriminate |].
    simpl in H. unfold next in H.
    change (set_lastValue v (set_hasStarted true (log (Emit v) w))) with (emitting v w) in H.
    assert (G1 : grows w (emitting v w)) by now exists [Emit v].
    assert (G2 : grows (emitting v w) w').
    { replace w' with (fst (exec body n (ForEachFrom 0 v) (emitting v w))) by now rewrite H.
      apply exec_grows. }
    rewrite (events_since_trans _ _ _ G1 G2), notified_app, in_app_iff. right.
    now apply (forEach_reaches_all _ _ _ _ _ _ H).
Qed.

End NoResubscription.

(** *** One observer object, subscribed twice *)

Lemma wrapWithObserver_object h o :
  typeof_function h o = false -> wrapWithObserver o h = (o, h).
Proof. intros H. unfold wrapWithObserver. now rewrite H. Qed.

Lemma Set_add_length s x : length (Set_add s x) <= S (length s).
Proof.
  unfold Set_add. destruct (Set_has s x); [lia |].
  rewrite length_app. simpl. lia.
Qed.

Lemma subscribe_quiet_object w o fuel :
  typeof_function (objects w) o = false ->
  quiet body (objects w) o ->
  exists w1,
    exec body (S fuel) (Subscribe o) w = (w1, Returned (RSubscription {| observer := o |})) /\
    objects w1 = objects w /\
    _observers (subject w1) = Set_add (_observers (subject w)) o.
Proof.
  intros Hobj Hq. simpl. unfold subscribe.
  rewrite (wrapWithObserver_object _ _ Hobj). simpl.
  destruct (_hasStarted (subject w)).
  - rewrite invoke_next_quiet by exact Hq. simpl. eexists. split; [reflexivity |].
    split; reflexivity.
  - simpl. eexists. split; [reflexivity |]. split; reflexivity.
Qed.

Lemma emit_all_quiet fuel vs : forall w,
  Forall (quiet body (objects w)) (members (_observers (subject w))) ->
  length (_observers (subject w)) + 1 < fuel ->
  grows w (emit_all body fuel vs w) /\
  forall o, ~ In o (members (_observers (subject w))) ->
            deliveries o (events_since w (emit_all body fuel vs w)) = [].
Proof.
  induction vs as [| v vs IH]; intros w Hq Hfuel; simpl.
  - split; [apply grows_refl |]. intros o _.
    rewrite (events_since_app w w []); [reflexivity | now rewrite app_nil_r].
  - rewrite (next_quiet v w fuel Hq Hfuel). simpl.
    set (w1 := delivered (members (_observers (subject w))) v (emitting v w)).
    assert (Hobj : objects w1 = objects w)
      by (unfold w1; now rewrite delivered_objects).
    assert (Hsub : _observers (subject w1) = _observers (subject w))
      by (unfold w1; now rewrite delivered_subject).
    assert (Ht : trace w1 = trace w ++
              Emit v :: map (fun o => Deliver o v) (members (_observers (subject w)))).
    { unfold w1. rewrite delivered_trace. simpl. now rewrite <- app_assoc. }
    destruct (IH w1) as [G2 Hnone].
    { now rewrite Hobj, Hsub. }
    { now rewrite Hsub. }
    assert (G1 : grows w w1) by (eexists; exact Ht).
    split; [eapply grows_trans; eassumption |].
    intros o Ho. rewrite (events_since_trans _ _ _ G1 G2), deliveries_app.
    rewrite (events_since_app _ _ _ Ht). simpl.
    rewrite deliveries_map_other by exact Ho.
    apply Hnone. now rewrite Hsub.
Qed.

(** C9: the subscriber Set never holds an observer twice.  When one observer
    object (not a function, so the adapter returns it unchanged) is passed
    to [subscribe] twice, the second call leaves the Set as it was, a later
    [next(v)] calls the observer's [next] exactly once, and [unsubscribe] on
    either of the two Subscriptions removes it: no later [next] call reaches
    it.  (The observers involved are taken to return without calling the
    Subject.) *)
Theorem same_observer_registered_once w o fuel :
  reachable undefined body w ->
  typeof_function (objects w) o = false ->
  quiet body (objects w) o ->
  Forall (quiet body (objects w)) (members (_observers (subject w))) ->
  length (_observers (subject w)) + 2 < fuel ->
  exists w1 w2 s1 s2,
    exec body fuel (Subscribe o) w = (w1, Returned (RSubscription s1)) /\
    exec body fuel (Subscribe o) w1 = (w2, Returned (RSubscription s2)) /\
    _observers (subject w2) = _observers (subject w1) /\
    NoDup (members (_observers (subject w2))) /\
    (forall v, deliveries o (events_since w2 (fst (exec body fuel (Next v) w2))) = [v]) /\
    (forall s vs, s = s1 \/ s = s2 ->
       deliveries o
         (events_since w2 (emit_all body fuel vs (fst (exec body fuel (Unsubscribe s) w2)))) = []).
Proof.
  intros Hreach Hobj Hq Hall Hfuel.
  destruct fuel as [| n]; [lia |].
  destruct (subscribe_quiet_object w o n Hobj Hq) as (w1 & E1 & Ho1 & Hs1).
  assert (Hobj1 : typeof_function (objects w1) o = false) by now rewrite Ho1.
  assert (Hq1 : quiet body (objects w1) o) by now rewrite Ho1.
  destruct (subscribe_quiet_object w1 o n Hobj1 Hq1) as (w2 & E2 & Ho2 & Hs2).
  assert (Hin1 : In o (members (_observers (subject w1)))).
  { rewrite Hs1. apply Set_add_In. now left. }
  rewrite (Set_add_present _ _ Hin1) in Hs2.
  assert (Hnd : NoDup (members (_observers (subject w2)))).
  { rewrite Hs2, Hs1. now apply Set_add_NoDup, reachable_NoDup. }
  assert (Hall2 : Forall (quiet body (objects w2)) (members (_observers (subject w2)))).
  { rewrite Ho2, Ho1, Hs2, Hs1. apply Forall_forall. intros p Hp.
    apply Set_add_In in Hp as [-> | Hp]; [exact Hq |].
    now apply (proj1 (Forall_forall _ _) Hall). }
  assert (Hlen : length (_observers (subject w2)) <= S (length (_observers (subject w)))).
  { rewrite Hs2, Hs1. apply Set_add_length. }
  exists w1, w2, {| observer := o |}, {| observer := o |}.
  split; [exact E1 |]. split; [exact E2 |]. split; [exact Hs2 |]. split; [exact Hnd |].
  split.
  - intros v. rewrite next_quiet; [| exact Hall2 | lia]. simpl.
    rewrite (events_since_app w2 _
               (Emit v :: map (fun p => Deliver p v) (members (_observers (subject w2))))).
    + simpl. apply deliveries_map_once; [exact Hnd | now rewrite Hs2].
    + rewrite delivered_trace. simpl. now rewrite <- app_assoc.
  - intros s vs Hs. assert (s = {| observer := o |}) as -> by (destruct Hs; assumption).
    simpl.
    set (w3 := set_observers (Set_delete (_observers (subject w2)) o) w2).
    assert (Hsub3 : forall p, In p (members (_observers (subject w3))) ->
                              In p (members (_observers (subject w2))) /\ p <> o).
    { intros p Hp. now apply Set_delete_In in Hp. }
    destruct (emit_all_quiet (S n) vs w3) as [_ Hnone].
    { apply Forall_forall. intros p Hp. apply Hsub3 in Hp as [Hp _].
      now apply (proj1 (Forall_forall _ _) Hall2). }
    { unfold w3. simpl. rewrite Set_delete_length. lia. }
    apply (Hnone o). intros Hp. apply Hsub3 in Hp as [_ Hp]. now apply Hp.
Qed.

End Theory.

End SubjectTheory.

(** ** Theory of the two Observables *)
Module ObservableTheory.
Import Js SetFacts IndefiniteObservable.

Section Theory.

Variable env : Environment.

Implicit Types w : World.
Implicit Types rec : call -> World -> World * completion.

(** *** Bodies that do not call the library *)

Lemma run_calls_nothing rec acts w :
  calls_nothing acts -> run rec acts w = (w, ending acts).
Proof.
  intros H. destruct acts as [| [c | e] rest]; simpl; try reflexivity.
  elim (H c). now left.
Qed.

Lemma session_events w w' t : trace w' = trace w ++ t -> events_since w w' = t.
Proof.
  intros H. unfold events_since. rewrite H.
  rewrite skipn_app, skipn_all, Nat.sub_diag. reflexivity.
Qed.

Lemma callee_app h h' a f : callee h a = Some f -> callee (h ++ h') a = Some f.
Proof.
  unfold callee. destruct (nth_error h a) as [ob |] eqn:E; [| discriminate].
  rewrite nth_error_app1 by (apply nth_error_Some; congruence). now rewrite E.
Qed.

Lemma callee_wrapWithObserver h l a f :
  callee h a = Some f -> callee (snd (wrapWithObserver l h)) a = Some f.
Proof.
  unfold wrapWithObserver, alloc. destruct (typeof_function h l); simpl; [| trivial].
  apply callee_app.
Qed.

Lemma callee_bundled_listener h l a f :
  callee h a = Some f -> callee (snd (bundled_listener l h)) a = Some f.
Proof.
  unfold bundled_listener, alloc. destruct (get_next h l); simpl; [trivial |].
  apply callee_app.
Qed.


(** *** What every run preserves *)
Section Invariant.

Variable P : World -> Prop.
Hypothesis P_log : forall e w, P w -> P (log e w).
Hypothesis P_objects : forall h w, P w -> P (set_objects h w).
Hypothesis P_scope : forall d w, P w -> P (snd (new_scope d w)).
Hypothesis P_close : forall i w, P w -> P (set_closed i w).

Lemma andThen_preserves x k :
  P (fst x) -> (forall w, P w -> P (fst (k w))) -> P (fst (andThen x k)).
Proof. destruct x as [w [r | e | ]]; simpl; auto. Qed.

Lemma run_preserves rec : preserves P rec -> forall acts w, P w -> P (fst (run rec acts w)).
Proof.
  intros Hrec acts; induction acts as [| [c | e] rest IH]; intros w Hw; simpl; auto.
  apply andThen_preserves; auto.
Qed.

Lemma call_connect_preserves rec fn o k w :
  preserves P rec -> (forall x w', P w' -> P (fst (k x w'))) -> P w ->
  P (fst (call_connect env rec fn o w k)).
Proof.
  intros Hrec Hk Hw. unfold call_connect.
  destruct (callee (objects w) fn) as [f |]; [| exact Hw]. simpl.
  destruct (connect_body env f o _ _) as [acts ret].
  apply andThen_preserves; [| apply Hk].
  apply run_preserves; [exact Hrec | now apply P_log].
Qed.

Lemma call_disconnect_preserves rec fn w :
  preserves P rec -> P w -> P (fst (call_disconnect env rec fn w)).
Proof.
  intros Hrec Hw. unfold call_disconnect.
  destruct (callee (objects w) fn) as [f |]; [| exact Hw]. simpl.
  apply run_preserves; [exact Hrec | now apply P_log].
Qed.

Lemma dispatch_preserves rec : preserves P rec -> preserves P (dispatch env rec).
Proof.
  intros Hrec [this l | this l | [sc | fn]] w Hw; simpl.
  - unfold subscribe. destruct (wrapWithObserver l (objects w)) as [o h].
    apply call_connect_preserves; auto.
  - unfold bundled_subscribe. destruct (bundled_listener l (objects w)) as [o h].
    apply call_connect_preserves; auto.
  - unfold unsubscribe. destruct (nth_error (scopes w) sc) as [s |]; [| exact Hw].
    destruct (negb (closed s)); [| exact Hw].
    apply call_disconnect_preserves; auto.
  - now apply call_disconnect_preserves.
Qed.

Lemma exec_preserves fuel : preserves P (exec env fuel).
Proof.
  induction fuel as [| n IH]; simpl; [intros c w Hw; exact Hw |].
  now apply dispatch_preserves.
Qed.

End Invariant.

(** *** The guard of dist *)

Lemma close_closes i scs sc :
  nth_error scs i = Some sc ->
  nth_error (close i scs) i = Some {| disconnect := disconnect sc; closed := true |}.
Proof.
  revert i; induction scs as [| s scs IH]; intros [| i] H; simpl in *; try discriminate.
  - now inversion H.
  - now apply IH.
Qed.

Lemma close_keeps_closed i j scs :
  (exists sc, nth_error scs i = Some sc /\ closed sc = true) ->
  exists sc, nth_error (close j scs) i = Some sc /\ closed sc = true.
Proof.
  revert i j; induction scs as [| s scs IH]; intros i j (sc & H & Hc).
  - destruct i; discriminate.
  - destruct j as [| j], i as [| i]; simpl in *; eauto.
Qed.

Lemma is_closed_stays i fuel c w : is_closed i w -> is_closed i (fst (exec env fuel c w)).
Proof.
  apply (exec_preserves (is_closed i)); unfold is_closed; simpl; auto.
  - intros d w0 (sc & H & Hc). exists sc. split; [| exact Hc].
    rewrite nth_error_app1; [exact H | apply nth_error_Some; congruence].
  - intros j w0. apply close_keeps_closed.
Qed.

Lemma unsubscribe_closed_noop i fuel w :
  is_closed i w -> exec env (S fuel) (Unsubscribe (Guarded i)) w = (w, Returned RUndefined).
Proof.
  intros (sc & H & Hc). simpl. unfold unsubscribe. now rewrite H, Hc.
Qed.

Lemma unsubscribe_closes i fuel w sc :
  nth_error (scopes w) i = Some sc ->
  is_closed i (fst (exec env (S fuel) (Unsubscribe (Guarded i)) w)).
Proof.
  intros H. simpl. unfold unsubscribe. rewrite H.
  destruct (closed sc) eqn:Hc; simpl; [now exists sc |].
  apply (call_disconnect_preserves (is_closed i)).
  - intros e w0 Hw0. exact Hw0.
  - intros c w0. apply is_closed_stays.
  - exists {| disconnect := disconnect sc; closed := true |}. simpl.
    split; [now apply close_closes | reflexivity].
Qed.

(** The Subscription of dist is idempotent: once [unsubscribe] was called,
    however that call ended and whatever the disconnect function did, every
    further call returns at once and changes nothing. *)
Lemma dist_unsubscribe_idempotent i fuel fuel' n w sc :
  nth_error (scopes w) i = Some sc ->
  unsubscribe_times env (S fuel') (Guarded i) n (fst (exec env (S fuel) (Unsubscribe (Guarded i)) w))
  = fst (exec env (S fuel) (Unsubscribe (Guarded i)) w).
Proof.
  intros H. pose proof (unsubscribe_closes i fuel w sc H) as Hc.
  set (w1 := fst (exec env (S fuel) (Unsubscribe (Guarded i)) w)) in *. clearbody w1.
  induction n as [| n IH]; [reflexivity |].
  cbn [unsubscribe_times]. rewrite (unsubscribe_closed_noop i fuel' w1 Hc). exact IH.
Qed.

(** *** Connecting *)

Lemma normalized_length ls : forall h, length (normalized ls h) = length ls.
Proof.
  induction ls as [| l ls IH]; intros h; simpl; [reflexivity | now rewrite IH].
Qed.

Lemma subscribe_step this l w n f :
  callee (objects w) (_connect this) = Some f ->
  (forall o h t, calls_nothing (fst (connect_body env f o h t))) ->
  objects (fst (exec env (S n) (Subscribe this l) w)) = snd (wrapWithObserver l (objects w)) /\
  trace (fst (exec env (S n) (Subscribe this l) w)) =
    trace w ++ [Connect (_connect this) (fst (wrapWithObserver l (objects w)))].
Proof.
  intros Hf Hquiet. simpl. unfold subscribe.
  pose proof (callee_wrapWithObserver _ l _ _ Hf) as Hf'.
  destruct (wrapWithObserver l (objects w)) as [o h]. simpl in Hf' |- *.
  unfold call_connect. simpl. rewrite Hf'.
  pose proof (Hquiet o h (trace w ++ [Connect (_connect this) o])) as Hacts.
  destruct (connect_body env f o h (trace w ++ [Connect (_connect this) o])) as [acts ret].
  simpl in Hacts. rewrite (run_calls_nothing _ _ _ Hacts).
  destruct acts as [| [c | e] rest]; simpl; split; reflexivity.
Qed.

(** C5: the constructor stores the connect function and calls nothing; each
    [subscribe] call calls it exactly once, with the observer the adapter
    made of that call's argument.  So [N] calls of [subscribe] make exactly
    [N] calls of connect, one per listener and in order (connect taken not
    to call [subscribe] or [unsubscribe] itself; it may throw). *)
Theorem connect_once_per_subscribe connect ls w fuel f :
  callee (objects w) connect = Some f ->
  (forall o h t, calls_nothing (fst (connect_body env f o h t))) ->
  0 < fuel ->
  snd (new connect w) = w /\
  events_since w (subscribe_all env fuel (fst (new connect w)) ls w) =
    map (Connect connect) (normalized ls (objects w)) /\
  length (events_since w (subscribe_all env fuel (fst (new connect w)) ls w)) = length ls.
Proof.
  intros Hf Hquiet Hfuel. split; [reflexivity |]. simpl.
  destruct fuel as [| n]; [lia |]. clear Hfuel.
  assert (H : events_since w (subscribe_all env (S n) {| _connect := connect |} ls w) =
              map (Connect connect) (normalized ls (objects w))).
  { apply session_events. revert w Hf.
    induction ls as [| l ls IH]; intros w Hf; [simpl; now rewrite app_nil_r |].
    cbn [subscribe_all fold_left normalized map].
    destruct (subscribe_step {| _connect := connect |} l w n f Hf Hquiet) as [Hobj Htr].
    fold (subscribe_all env (S n) {| _connect := connect |} ls
            (fst (exec env (S n) (Subscribe {| _connect := connect |} l) w))).
    rewrite IH.
    - rewrite Htr, Hobj, <- app_assoc. reflexivity.
    - rewrite Hobj. now apply callee_wrapWithObserver. }
  split; [exact H |]. now rewrite H, length_map, normalized_length.
Qed.

(** *** Unsubscribing again *)

Lemma call_disconnect_quiet rec d w fd :
  callee (objects w) d = Some fd ->
  (forall h t, disconnect_body env fd h t = []) ->
  call_disconnect env rec d w = (log (Disconnect d) w, Returned RUndefined).
Proof.
  intros Hd Hq. unfold call_disconnect. rewrite Hd. simpl. now rewrite Hq.
Qed.

Lemma direct_unsubscribe_times m d fd n : forall w,
  callee (objects w) d = Some fd ->
  (forall h t, disconnect_body env fd h t = []) ->
  trace (unsubscribe_times env (S m) (Direct d) n w) = trace w ++ repeat (Disconnect d) n.
Proof.
  induction n as [| n IH]; intros w Hd Hq; simpl.
  - now rewrite app_nil_r.
  - rewrite (call_disconnect_quiet _ d w fd Hd Hq). simpl.
    fold (unsubscribe_times env (S m) (Direct d) n (log (Disconnect d) w)).
    rewrite IH; [| exact Hd | exact Hq]. simpl. now rewrite <- app_assoc.
Qed.

(** C2, on the bundled copy: its [subscribe] returns the creator's result as
    the [unsubscribe] method, with no guard, so [n] calls of [unsubscribe]
    call the disconnect function [n] times (twice for two calls), where
    dist calls it once. *)
Theorem bundled_unsubscribe_disconnects_every_time this l w n fuel fc fd d :
  callee (objects w) (_creator this) = Some fc ->
  (forall o h t, connect_body env fc o h t = ([], d)) ->
  callee (objects w) d = Some fd ->
  (forall h t, disconnect_body env fd h t = []) ->
  0 < fuel ->
  events_since w (subscribe_then_unsubscribe env fuel (BundledSubscribe this l) n w) =
    Connect (_creator this) (fst (bundled_listener l (objects w)))
      :: repeat (Disconnect d) n.
Proof.
  intros Hc Hcb Hd Hdb Hfuel. destruct fuel as [| m]; [lia |].
  apply session_events.
  unfold subscribe_then_unsubscribe. simpl. unfold bundled_subscribe.
  pose proof (callee_bundled_listener _ l _ _ Hc) as Hc'.
  pose proof (callee_bundled_listener _ l _ _ Hd) as Hd'.
  destruct (bundled_listener l (objects w)) as [o h]. simpl in Hc', Hd' |- *.
  unfold call_connect. simpl. rewrite Hc', Hcb. simpl.
  rewrite (direct_unsubscribe_times m d fd n); [| exact Hd' | exact Hdb].
  simpl. now rewrite <- app_assoc.
Qed.

(** The same session on dist: [subscribe] calls connect once and the
    Subscription it returns calls the disconnect function exactly once,
    however often [unsubscribe] is called. *)
Theorem dist_unsubscribe_disconnects_once this l w n fuel fc fd d :
  callee (objects w) (_connect this) = Some fc ->
  (forall o h t, connect_body env fc o h t = ([], d)) ->
  callee (objects w) d = Some fd ->
  (forall h t, disconnect_body env fd h t = []) ->
  0 < fuel ->
  events_since w (subscribe_then_unsubscribe env fuel (Subscribe this l) n w) =
    Connect (_connect this) (fst (wrapWithObserver l (objects w)))
      :: match n with 0 => [] | S _ => [Disconnect d] end.
Proof.
  intros Hc Hcb Hd Hdb Hfuel. destruct fuel as [| m]; [lia |].
  apply session_events.
  unfold subscribe_then_unsubscribe. simpl exec. unfold subscribe.
  pose proof (callee_wrapWithObserver _ l _ _ Hc) as Hc'.
  pose proof (callee_wrapWithObserver _ l _ _ Hd) as Hd'.
  destruct (wrapWithObserver l (objects w)) as [o h]. simpl in Hc', Hd' |- *.
  unfold call_connect. simpl. rewrite Hc', Hcb. simpl.
  destruct n as [| n]; [reflexivity |].
  cbn [unsubscribe_times].
  match goal with |- context [exec env (S m) (Unsubscribe (Guarded ?i)) ?w2] =>
    assert (Hsc : nth_error (scopes w2) i = Some {| disconnect := d; closed := false |})
  end.
  { simpl. now rewrite nth_error_app2, Nat.sub_diag by lia. }
  rewrite (dist_unsubscribe_idempotent _ m m n _ _ Hsc).
  simpl. unfold unsubscribe. simpl.
  rewrite nth_error_app2, Nat.sub_diag by lia. simpl.
  rewrite (call_disconnect_quiet _ d _ fd); [| exact Hd' | exact Hdb].
  simpl. now rewrite <- app_assoc.
Qed.


End Theory.

End ObservableTheory.

(** ** The Subject at work *)
Module SubjectScenarios.
Import Js IndefiniteSubject SubjectPrograms SubjectTheory.

(** after [next(1); next(2)], [subscribe(A)] delivers exactly 2 to [A] *)
Lemma replay_after_next_1_next_2 :
  exists rest,
    events_since after_1_and_2 (fst (exec silent 1 (Subscribe A) after_1_and_2))
      = Deliver A 2 :: rest /\
    ((forall w1, silent 0 2 w1 = []) ->
     rest = [] /\
     snd (exec silent 1 (Subscribe A) after_1_and_2)
       = Returned (RSubscription {| observer := A |})).
Proof.
  apply (subscribe_replays_last_emitted nat 0 silent after_1_and_2 A 2 A program 0 0).
  - apply reach_run, reach_new.
  - reflexivity.
  - reflexivity.
  - reflexivity.
  - reflexivity.
Defined.

Example A_receives_2_and_never_1 :
  deliveries A (events_since after_1_and_2 (fst (exec silent 1 (Subscribe A) after_1_and_2)))
    = [2].
Proof. reflexivity. Qed.

(** [subscribe(C)], then [subscribe] of the function 0, on a Subject that
    has had subscribers but no [next] call *)
Lemma subscribing_after_unsubscribing_A_calls_nothing :
  exec silent 1 (Subscribe C) after_unsubscribing_A =
    (set_observers
       (Set_add (_observers (subject after_unsubscribing_A))
          (fst (wrapWithObserver C (objects after_unsubscribing_A))))
       (set_objects (snd (wrapWithObserver C (objects after_unsubscribing_A)))
          after_unsubscribing_A),
     Returned
       (RSubscription
          {| observer := fst (wrapWithObserver C (objects after_unsubscribing_A)) |})) /\
  events_since after_unsubscribing_A
    (fst (exec silent 1 (Subscribe C) after_unsubscribing_A)) = [] /\
  In (fst (wrapWithObserver C (objects after_unsubscribing_A)))
     (members (_observers (subject
        (fst (exec silent 1 (Subscribe C) after_unsubscribing_A))))).
Proof.
  apply (fresh_subject_replays_nothing nat 0 silent after_unsubscribing_A C 0).
  - apply reach_run, reach_new.
  - intros v [].
Defined.

(** [next(9)] with subscribers [A] and [B] *)
Lemma fan_out_to_A_and_B :
  exists w',
    exec silent 4 (Next 9) (with_A_B silent) = (w', Returned RUndefined) /\
    events_since (with_A_B silent) w' = [Emit 9; Deliver A 9; Deliver B 9] /\
    (forall o, In o [A; B] -> deliveries o (events_since (with_A_B silent) w') = [9]) /\
    (forall o, ~ In o [A; B] -> deliveries o (events_since (with_A_B silent) w') = []).
Proof.
  apply (next_fans_out nat 0 silent (with_A_B silent) 9 4).
  - apply reach_run, reach_new.
  - change (Forall (quiet silent program) [A; B]).
    repeat apply Forall_cons; [exists 0 | exists 1 | apply Forall_nil];
      (split; [reflexivity | intros; reflexivity]).
  - simpl. lia.
Defined.

(** Without that condition [next] does skip and does repeat.  When
    [A.next] unsubscribes [B], [next(7)] returns and [B], registered when
    the call began, was not called; when [A.next] passes [B] to [subscribe]
    once more, the replay calls [B.next(7)] and the pass calls it again.  So
    it is not so that every registered observer is called exactly once. *)
Lemma next_skips_B_and_calls_B_twice :
  In B (members (_observers (subject (with_A_B unsubscribing)))) /\
  snd (exec unsubscribing 5 (Next 7) (with_A_B unsubscribing)) = Returned RUndefined /\
  deliveries B
    (events_since (with_A_B unsubscribing)
       (fst (exec unsubscribing 5 (Next 7) (with_A_B unsubscribing)))) = [] /\
  In B (members (_observers (subject (with_A_B resubscribing)))) /\
  snd (exec resubscribing 5 (Next 7) (with_A_B resubscribing)) = Returned RUndefined /\
  deliveries B
    (events_since (with_A_B resubscribing)
       (fst (exec resubscribing 5 (Next 7) (with_A_B resubscribing)))) = [7; 7] /\
  ~ synchronous_fan_out 0 unsubscribing /\
  ~ synchronous_fan_out 0 resubscribing.
Proof.
  split; [right; now left |]. split; [reflexivity |]. split; [reflexivity |].
  split; [right; now left |]. split; [reflexivity |]. split; [reflexivity |]. split.
  - intros H.
    assert (E : exec unsubscribing 5 (Next 7) (with_A_B unsubscribing)
                = (fst (exec unsubscribing 5 (Next 7) (with_A_B unsubscribing)),
                   Returned RUndefined)) by reflexivity.
    assert (R : reachable 0 unsubscribing (with_A_B unsubscribing))
      by apply reach_run, reach_new.
    pose proof (H _ _ _ _ _ R E B (or_intror (or_introl eq_refl))) as HB.
    discriminate HB.
  - intros H.
    assert (E : exec resubscribing 5 (Next 7) (with_A_B resubscribing)
                = (fst (exec resubscribing 5 (Next 7) (with_A_B resubscribing)),
                   Returned RUndefined)) by reflexivity.
    assert (R : reachable 0 resubscribing (with_A_B resubscribing))
      by apply reach_run, reach_new.
    pose proof (H _ _ _ _ _ R E B (or_intror (or_introl eq_refl))) as HB.
    discriminate HB.
Qed.

(** [B.next] throws while [next(5)] delivers to [A], [B], [C] *)
Lemma B_throws_and_C_is_not_called :
  exec B_throws 3 (Next 5) (with_A_B_C B_throws) =
  ({| objects := program;
      subject := {| _observers := [Some A; Some B; Some C];
                    _hasStarted := true;
                    _lastValue := 5 |};
      trace := [Emit 5; Deliver A 5; Deliver B 5] |},
   Threw (Raised 7)).
Proof.
  apply (next_aborts_when_observer_throws nat B_throws (with_A_B_C B_throws) 5 1
           (log (Deliver A 5) (emitting 5 (with_A_B_C B_throws))) B (Raised 7) 0).
  - apply (visits_call B_throws 0 5 (emitting 5 (with_A_B_C B_throws)) 0
             (emitting 5 (with_A_B_C B_throws)) A
             (log (Deliver A 5) (emitting 5 (with_A_B_C B_throws))) RUndefined).
    + apply visits_start.
    + reflexivity.
    + reflexivity.
  - reflexivity.
  - reflexivity.
  - simpl. lia.
Defined.

(** [subscribe(A)] after [next(1)], where [A.next] throws *)
Lemma A_throws_on_replay_and_stays_registered :
  In A (members (Set_add (_observers (subject (after_1 A_throws))) A)) /\
  exec A_throws 1 (Subscribe A) (after_1 A_throws)
  = ({| objects := program;
        subject := {| _observers := [Some A]; _hasStarted := true; _lastValue := 1 |};
        trace := [Emit 1; Deliver A 1] |},
     Threw (Raised 7)) /\
  In A (members [Some A]).
Proof.
  apply (subscribe_throw_leaves_observer_registered nat A_throws (after_1 A_throws)
           A A program 0).
  - reflexivity.
  - reflexivity.
  - intros [| [| f]] v w0; simpl; intros H; try exact H.
    destruct H as [H | H]; [discriminate | exact H].
  - reflexivity.
Defined.

(** [A.next(1)] calls [subject.next(2)]: both passes reach [A] and [B], and
    nobody else *)
Lemma nested_emission_notifies_A_and_B :
  _observers (subject (fst (exec echoing 6 (Next 1) (with_A_B echoing))))
    = _observers (subject (with_A_B echoing)) /\
  forall o,
    In o (notified (events_since (with_A_B echoing)
                      (fst (exec echoing 6 (Next 1) (with_A_B echoing))))) <->
    In o (members (_observers (subject (with_A_B echoing)))).
Proof.
  refine (next_notifies_subscribers_when_none_resubscribes nat echoing _
            (with_A_B echoing) 1 6 _ RUndefined _).
  - intros [| f] [| [| v]] w a; simpl; intros H; try contradiction.
    destruct H as [<- | []]. reflexivity.
  - reflexivity.
Defined.

Example nested_emission_trace :
  events_since (with_A_B echoing) (fst (exec echoing 6 (Next 1) (with_A_B echoing)))
    = [Emit 1; Deliver A 1; Emit 2; Deliver A 2; Deliver B 2; Deliver B 1].
Proof. reflexivity. Qed.

(** The pass of [next] reads the live Set.  When [A.next] unsubscribes [B],
    [next(7)] returns without having called [B], which was subscribed when
    the call began; when [A.next] subscribes [C], the same pass calls [C],
    which was not.  So the notified observers are not the subscriber set at
    the start of the call. *)
Lemma next_reads_the_live_set :
  (exec unsubscribing 5 (Next 7) (with_A_B unsubscribing)
     = ({| objects := program;
           subject := {| _observers := [Some A; None];
                         _hasStarted := true;
                         _lastValue := 7 |};
           trace := [Emit 7; Deliver A 7] |},
        Returned RUndefined) /\
   members (_observers (subject (with_A_B unsubscribing))) = [A; B]) /\
  (exec subscribing 5 (Next 7) (with_A_B subscribing)
     = ({| objects := program;
           subject := {| _observers := [Some A; Some B; Some C];
                         _hasStarted := true;
                         _lastValue := 7 |};
           trace := [Emit 7; Deliver A 7; Deliver C 7; Deliver B 7; Deliver C 7] |},
        Returned RUndefined) /\
   members (_observers (subject (with_A_B subscribing))) = [A; B]) /\
  ~ snapshot_delivery unsubscribing /\
  ~ snapshot_delivery subscribing.
Proof.
  split; [split; reflexivity |]. split; [split; reflexivity |]. split.
  - intros H.
    assert (E : exec unsubscribing 5 (Next 7) (with_A_B unsubscribing)
                = (fst (exec unsubscribing 5 (Next 7) (with_A_B unsubscribing)),
                   Returned RUndefined)) by reflexivity.
    pose proof (proj2 (H _ _ _ _ _ E B)) as HB.
    simpl in HB. destruct HB as [HB | HB]; [now right; left | discriminate | exact HB].
  - intros H.
    assert (E : exec subscribing 5 (Next 7) (with_A_B subscribing)
                = (fst (exec subscribing 5 (Next 7) (with_A_B subscribing)),
                   Returned RUndefined)) by reflexivity.
    pose proof (proj1 (H _ _ _ _ _ E C)) as HC.
    simpl in HC. destruct HC as [HC | [HC | HC]];
      [now right; left | discriminate | discriminate | exact HC].
Qed.

(** [subscribe(A)] twice on a new Subject *)
Lemma A_subscribed_twice_is_registered_once :
  exists w1 w2 s1 s2,
    exec silent 4 (Subscribe A) (new 0 program) = (w1, Returned (RSubscription s1)) /\
    exec silent 4 (Subscribe A) w1 = (w2, Returned (RSubscription s2)) /\
    _observers (subject w2) = _observers (subject w1) /\
    NoDup (members (_observers (subject w2))) /\
    (forall v, deliveries A (events_since w2 (fst (exec silent 4 (Next v) w2))) = [v]) /\
    (forall s vs, s = s1 \/ s = s2 ->
       deliveries A
         (events_since w2 (emit_all silent 4 vs (fst (exec silent 4 (Unsubscribe s) w2))))
       = []).
Proof.
  apply (same_observer_registered_once nat 0 silent (new 0 program) A 4).
  - apply reach_new.
  - reflexivity.
  - exists 0. split; [reflexivity | intros; reflexivity].
  - apply Forall_nil.
  - simpl. lia.
Defined.

End SubjectScenarios.

(** ** The two Observables at work *)
Module ObservableScenarios.
Import Js IndefiniteObservable ObservablePrograms ObservableTheory.

(** three [subscribe] calls: connect is called three times, each time with
    the observer made for that call *)
Lemma three_subscriptions_connect_three_times :
  snd (new 0 start) = start /\
  events_since start
    (subscribe_all passive 1 (fst (new 0 start)) [2; 4; 2] start)
    = [Connect 0 6; Connect 0 4; Connect 0 7] /\
  length (events_since start
            (subscribe_all passive 1 (fst (new 0 start)) [2; 4; 2] start))
    = 3.
Proof.
  apply (connect_once_per_subscribe passive 0 [2; 4; 2] start 1 0).
  - reflexivity.
  - intros o h t c [].
  - lia.
Defined.

(** the failing input of the bundle: [unsubscribe] twice *)
Lemma bundled_unsubscribe_twice_disconnects_twice :
  events_since start (bundled_session 2 2) = [Connect 0 6; Disconnect 1; Disconnect 1].
Proof.
  apply (bundled_unsubscribe_disconnects_every_time passive
           {| _creator := 0 |} 2 start 2 2 0 1 1).
  - reflexivity.
  - reflexivity.
  - reflexivity.
  - reflexivity.
  - lia.
Defined.

(** the same two calls on dist *)
Lemma dist_unsubscribe_twice_disconnects_once :
  events_since start (dist_session 2 2) = [Connect 0 6; Disconnect 1].
Proof.
  apply (dist_unsubscribe_disconnects_once passive {| _connect := 0 |} 2 start 2 2 0 1 1).
  - reflexivity.
  - reflexivity.
  - reflexivity.
  - reflexivity.
  - lia.
Defined.



End ObservableScenarios.

(** ** The Subject's listeners: unsubscribing, functions as listeners *)
Module SubjectLifecycle.
Import Js SetFacts IndefiniteSubject SubjectNotions SubjectTheory.

Section Theory.

Variable value : Type.
Variable undefined : value.
Variable body : fid -> value -> World value -> list (action value).

Implicit Types w : World value.
Implicit Types acts : list (action value).
Implicit Types t : list (event value).
Implicit Types v : value.

(** *** Objects stay what they are when the heap grows *)

Lemma get_next_app h h' o m : get_next h o = Some m -> get_next (h ++ h') o = Some m.
Proof.
  unfold get_next. destruct (nth_error h o) as [ob |] eqn:E; [| discriminate].
  rewrite nth_error_app1 by (apply nth_error_Some; congruence). now rewrite E.
Qed.

Lemma callee_grows h h' o f : callee h o = Some f -> callee (h ++ h') o = Some f.
Proof.
  unfold callee. destruct (nth_error h o) as [ob |] eqn:E; [| discriminate].
  rewrite nth_error_app1 by (apply nth_error_Some; congruence). now rewrite E.
Qed.

Lemma method_next_app h h' o f : method_next h o = Some f -> method_next (h ++ h') o = Some f.
Proof.
  unfold method_next. destruct (get_next h o) as [m |] eqn:E; [| discriminate].
  rewrite (get_next_app _ h' _ _ E). apply callee_grows.
Qed.

Lemma quiet_app h h' o : quiet body h o -> quiet body (h ++ h') o.
Proof.
  intros (f & Hf & Hq). exists f. split; [now apply method_next_app | exact Hq].
Qed.

Lemma method_next_inside h o f : method_next h o = Some f -> o < length h.
Proof.
  unfold method_next, get_next. destruct (nth_error h o) as [ob |] eqn:E; [| discriminate].
  intros _. apply nth_error_Some. congruence.
Qed.

Lemma quiet_inside h o : quiet body h o -> o < length h.
Proof. intros (f & Hf & _). eapply method_next_inside, Hf. Qed.

(** the adapter hands out the listener itself or a fresh object, and keeps
    the objects there are *)
Lemma wrapWithObserver_other h l o :
  o < length h -> l <> o ->
  fst (wrapWithObserver l h) <> o /\ o < length (snd (wrapWithObserver l h)).
Proof.
  intros Ho Hl. unfold wrapWithObserver, alloc.
  destruct (typeof_function h l); simpl.
  - rewrite length_app. simpl. split; lia.
  - split; assumption.
Qed.

Lemma deliveries_one o p v :
  deliveries o [Deliver p v] = if o =? p then [v] else [].
Proof. simpl. now destruct (o =? p). Qed.

(** *** After [unsubscribe] *)

Lemma Set_delete_idem s x : Set_delete (Set_delete s x) x = Set_delete s x.
Proof.
  unfold Set_delete. rewrite map_map. apply map_ext. intros [y |]; simpl; [| reflexivity].
  destruct (x =? y) eqn:E; simpl; [reflexivity | now rewrite E].
Qed.

(** X1: once [unsubscribe] was called for an observer, nothing reaches it any
    more: whatever is done with the Subject afterwards ([next] calls, other
    subscriptions, callbacks that call back or throw), as long as nobody
    subscribes that observer again, its [next] is never called and it is
    not in the Set. *)
Theorem unsubscribed_observer_is_never_called w obs fuel fuel' acts :
  obs < length (objects w) ->
  (forall f v w0, ~ In (CallSubscribe obs) (body f v w0)) ->
  ~ In (CallSubscribe obs) acts ->
  deliveries obs
    (events_since (fst (exec body (S fuel) (Unsubscribe {| observer := obs |}) w))
       (fst (run (exec body fuel') acts
               (fst (exec body (S fuel) (Unsubscribe {| observer := obs |}) w))))) = [] /\
  ~ In obs (members (_observers (subject
       (fst (run (exec body fuel') acts
               (fst (exec body (S fuel) (Unsubscribe {| observer := obs |}) w))))))).
Proof.
  intros Hobs Hbody Hacts. simpl exec. unfold unsubscribe. simpl.
  set (w1 := set_observers (Set_delete (_observers (subject w)) obs) w).
  pose (away := fun a : World value =>
    obs < length (objects a) /\ ~ In obs (members (_observers (subject a)))).
  pose (R := fun a b : World value =>
    away a -> away b /\ exists t, trace b = trace a ++ t /\ deliveries obs t = []).
  pose (ok := fun c : call value => c <> Subscribe obs).
  assert (Hrefl : forall a, R a a).
  { intros a Ha. split; [exact Ha |]. exists []. now rewrite app_nil_r. }
  assert (Htrans : forall a b c, R a b -> R b c -> R a c).
  { intros a b c Hab Hbc Ha. destruct (Hab Ha) as (Hb & t1 & E1 & D1).
    destruct (Hbc Hb) as (Hc & t2 & E2 & D2). split; [exact Hc |].
    exists (t1 ++ t2). split; [now rewrite E2, E1, app_assoc |].
    now rewrite (deliveries_app value), D1, D2. }
  assert (Hok : forall f v a act c, In act (body f v a) -> call_of act = inr c -> ok c).
  { intros f v a act c Hin Hc Heq. subst c.
    destruct act as [? | l | ? | ?]; simpl in Hc; inversion Hc; subst.
    now apply (Hbody f v a). }
  assert (Hexec : forall n, respects R ok (exec body n)).
  { intros n. apply (exec_respects value body R ok Hrefl Htrans).
    - intros v a _ Ha. split; [exact Ha |]. exists [Emit v]. split; reflexivity.
    - intros o v a Ho [Ha1 Ha2]. split; [split; assumption |].
      exists [Deliver o v]. split; [reflexivity |].
      rewrite deliveries_one. destruct (Nat.eqb_spec obs o) as [-> | _]; [tauto | reflexivity].
    - intros l a Hl [Ha1 Ha2].
      assert (Hne : l <> obs) by (intros ->; now apply Hl).
      destruct (wrapWithObserver_other (objects a) l obs Ha1 Hne) as [Hfst Hlen].
      split.
      + split; [exact Hlen |]. simpl. rewrite Set_add_In. intros [E | E]; [now apply Hfst | tauto].
      + exists []. simpl. now rewrite app_nil_r.
    - intros s a _ [Ha1 Ha2]. split.
      + split; [exact Ha1 |]. simpl. rewrite Set_delete_In. tauto.
      + exists []. simpl. now rewrite app_nil_r.
    - intros i v. discriminate.
    - exact Hok. }
  assert (Hrun : R w1 (fst (run (exec body fuel') acts w1))).
  { apply (run_respects value R ok Hrefl Htrans (exec body fuel') (Hexec fuel')).
    intros a c Hin Hc Heq. subst c.
    destruct a as [? | l | ? | ?]; simpl in Hc; inversion Hc; subst. now apply Hacts. }
  destruct Hrun as ([_ Hout] & t & Et & Dt).
  { split; [exact Hobs |]. unfold w1. simpl. rewrite Set_delete_In. tauto. }
  split; [| exact Hout].
  now rewrite (events_since_app value _ _ _ Et).
Qed.

(** X2: a second [unsubscribe] on the same Subscription does nothing and
    raises no error: it returns and leaves the world as the first call left
    it, in which the observer is not a member. *)
Theorem subject_unsubscribe_twice_is_once w s fuel fuel' :
  exec body (S fuel') (Unsubscribe s) (fst (exec body (S fuel) (Unsubscribe s) w)) =
    (fst (exec body (S fuel) (Unsubscribe s) w), Returned RUndefined) /\
  ~ In (observer s)
      (members (_observers (subject (fst (exec body (S fuel) (Unsubscribe s) w))))).
Proof.
  simpl. unfold unsubscribe. simpl. split.
  - unfold set_observers. simpl. now rewrite Set_delete_idem.
  - rewrite Set_delete_In. tauto.
Qed.

(** *** Subscribing a quiet observer, and emitting afterwards *)

Lemma subscribed_objects obs h w : objects (subscribed obs h w) = h.
Proof. unfold subscribed. now destruct (_hasStarted (subject w)). Qed.

Lemma subscribed_observers obs h w :
  _observers (subject (subscribed obs h w)) = Set_add (_observers (subject w)) obs.
Proof. unfold subscribed. now destruct (_hasStarted (subject w)). Qed.

Lemma subscribed_trace obs h w :
  trace (subscribed obs h w) = trace w ++ map (fun v => Deliver obs v) (replay w).
Proof.
  unfold subscribed, replay. destruct (_hasStarted (subject w)); simpl;
    [reflexivity | now rewrite app_nil_r].
Qed.

Lemma subscribe_quiet w l obs h fuel :
  wrapWithObserver l (objects w) = (obs, h) ->
  quiet body h obs ->
  exec body (S fuel) (Subscribe l) w =
  (subscribed obs h w, Returned (RSubscription {| observer := obs |})).
Proof.
  intros Hwrap Hq. simpl. unfold subscribe. rewrite Hwrap. simpl.
  unfold subscribed. destruct (_hasStarted (subject w)); simpl; [| reflexivity].
  rewrite (invoke_next_quiet value body) by exact Hq. reflexivity.
Qed.

Lemma deliveries_map_self o vs :
  deliveries o (map (fun v => Deliver o v) vs) = vs.
Proof.
  induction vs as [| v vs IH]; simpl; [reflexivity |].
  now rewrite Nat.eqb_refl, IH.
Qed.

(** every emission reaches a registered observer once, in order *)
Lemma emit_all_deliveries fuel o vs : forall w,
  Forall (quiet body (objects w)) (members (_observers (subject w))) ->
  NoDup (members (_observers (subject w))) ->
  length (_observers (subject w)) + 1 < fuel ->
  In o (members (_observers (subject w))) ->
  deliveries o (events_since w (emit_all body fuel vs w)) = vs.
Proof.
  induction vs as [| v vs IH]; intros w Hq Hnd Hfuel Ho.
  - simpl. rewrite (events_since_app value w w []); [reflexivity | now rewrite app_nil_r].
  - simpl emit_all. rewrite (next_quiet value body v w fuel Hq Hfuel). simpl fst.
    set (w1 := delivered (members (_observers (subject w))) v (emitting v w)).
    assert (Hobj : objects w1 = objects w)
      by (unfold w1; now rewrite delivered_objects).
    assert (Hsub : _observers (subject w1) = _observers (subject w))
      by (unfold w1; now rewrite delivered_subject).
    assert (Ht : trace w1 = trace w ++
              Emit v :: map (fun p => Deliver p v) (members (_observers (subject w)))).
    { unfold w1. rewrite delivered_trace. simpl. now rewrite <- app_assoc. }
    assert (G1 : grows w w1) by (eexists; exact Ht).
    assert (G2 : grows w1 (emit_all body fuel vs w1)).
    { apply (emit_all_quiet value undefined body); [now rewrite Hobj, Hsub | now rewrite Hsub]. }
    fold (emit_all body fuel vs w1).
    rewrite (events_since_trans value _ _ _ G1 G2), (deliveries_app value).
    rewrite (events_since_app value _ _ _ Ht). simpl.
    rewrite (deliveries_map_once value undefined body) by assumption.
    rewrite IH; [reflexivity | now rewrite Hobj, Hsub | now rewrite Hsub
                 | now rewrite Hsub | now rewrite Hsub].
Qed.

Lemma wrapWithObserver_extends l h :
  exists h', snd (wrapWithObserver l h) = h ++ h'.
Proof.
  unfold wrapWithObserver, alloc. destruct (typeof_function h l); simpl.
  - eexists; reflexivity.
  - exists []. now rewrite app_nil_r.
Qed.

(** the adapter turns a function into a fresh observer whose [next] is that
    function *)
Lemma wrapWithObserver_function h l f :
  callee h l = Some f ->
  wrapWithObserver l h = (length h, h ++ [{| code := None; next_prop := Some l |}]) /\
  method_next (h ++ [{| code := None; next_prop := Some l |}]) (length h) = Some f.
Proof.
  intros Hf. split.
  - unfold wrapWithObserver, typeof_function. unfold callee in Hf.
    destruct (nth_error h l) as [ob |]; [| discriminate]. now rewrite Hf.
  - unfold method_next, get_next.
    rewrite nth_error_app2, Nat.sub_diag by lia. simpl. now apply callee_grows.
Qed.

Lemma subscribed_ready w obs h h' :
  reachable undefined body w ->
  Forall (quiet body (objects w)) (members (_observers (subject w))) ->
  h = objects w ++ h' ->
  quiet body h obs ->
  Forall (quiet body (objects (subscribed obs h w)))
    (members (_observers (subject (subscribed obs h w)))) /\
  NoDup (members (_observers (subject (subscribed obs h w)))) /\
  In obs (members (_observers (subject (subscribed obs h w)))) /\
  length (_observers (subject (subscribed obs h w))) <= S (length (_observers (subject w))).
Proof.
  intros Hreach Hall Hh Hq. rewrite subscribed_objects, subscribed_observers.
  split; [| split; [| split]].
  - apply Forall_forall. intros p Hp. apply Set_add_In in Hp as [-> | Hp]; [exact Hq |].
    rewrite Hh. apply quiet_app. now apply (proj1 (Forall_forall _ _) Hall).
  - now apply Set_add_NoDup, (reachable_NoDup value undefined body).
  - apply Set_add_In. now left.
  - apply Set_add_length.
Qed.

Lemma subscribe_then_emit w obs h h' fuel vs :
  reachable undefined body w ->
  Forall (quiet body (objects w)) (members (_observers (subject w))) ->
  h = objects w ++ h' ->
  quiet body h obs ->
  length (_observers (subject w)) + 2 < fuel ->
  deliveries obs (events_since w (emit_all body fuel vs (subscribed obs h w)))
  = replay w ++ vs.
Proof.
  intros Hreach Hall Hh Hq Hfuel.
  destruct (subscribed_ready w obs h h' Hreach Hall Hh Hq) as (Hall1 & Hnd1 & Hin1 & Hlen1).
  assert (G1 : grows w (subscribed obs h w)).
  { eexists. apply subscribed_trace. }
  assert (G2 : grows (subscribed obs h w) (emit_all body fuel vs (subscribed obs h w))).
  { apply (emit_all_quiet value undefined body); [exact Hall1 | lia]. }
  rewrite (events_since_trans value _ _ _ G1 G2), (deliveries_app value).
  rewrite (events_since_app value _ _ _ (subscribed_trace obs h w)), deliveries_map_self.
  rewrite emit_all_deliveries; [reflexivity | exact Hall1 | exact Hnd1 | lia | exact Hin1].
Qed.

(** X3: a function and an object whose [next] is that function are the same
    listener to the Subject.  Subscribed in the same state, each is called
    with the cached value (when there is one) and then with every value
    emitted afterwards, once each and in order. *)
Theorem function_and_object_listeners_receive_the_same w fn ob f fuel vs :
  reachable undefined body w ->
  Forall (quiet body (objects w)) (members (_observers (subject w))) ->
  callee (objects w) fn = Some f ->
  (forall v w0, body f v w0 = []) ->
  typeof_function (objects w) ob = false ->
  get_next (objects w) ob = Some fn ->
  length (_observers (subject w)) + 2 < fuel ->
  exists o w1 w2,
    exec body fuel (Subscribe fn) w = (w1, Returned (RSubscription {| observer := o |})) /\
    exec body fuel (Subscribe ob) w = (w2, Returned (RSubscription {| observer := ob |})) /\
    deliveries o (events_since w (emit_all body fuel vs w1)) = replay w ++ vs /\
    deliveries ob (events_since w (emit_all body fuel vs w2)) = replay w ++ vs.
Proof.
  intros Hreach Hall Hfn Hquiet Hob Hnext Hfuel.
  destruct fuel as [| n]; [lia |].
  destruct (wrapWithObserver_function _ _ _ Hfn) as [Hwrap Hm].
  set (h1 := objects w ++ [{| code := None; next_prop := Some fn |}]) in *.
  assert (Hq1 : quiet body h1 (length (objects w))) by (exists f; split; assumption).
  assert (Hq2 : quiet body (objects w) ob).
  { exists f. split; [| exact Hquiet]. unfold method_next. now rewrite Hnext. }
  exists (length (objects w)), (subscribed (length (objects w)) h1 w),
    (subscribed ob (objects w) w).
  split; [now apply subscribe_quiet |].
  split; [apply subscribe_quiet; [now apply wrapWithObserver_object | exact Hq2] |].
  split.
  - now apply (subscribe_then_emit w _ h1 [{| code := None; next_prop := Some fn |}]).
  - apply (subscribe_then_emit w ob (objects w) []); try assumption.
    now rewrite app_nil_r.
Qed.

(** X4: the Set tells observers apart, not functions.  A function passed to
    [subscribe] twice is wrapped twice: two different observers are
    registered, every emission calls the function once through each of
    them, and [unsubscribe] on the first Subscription stops only the first. *)
Theorem function_subscribed_twice_is_called_twice w l f fuel vs :
  reachable undefined body w ->
  Forall (quiet body (objects w)) (members (_observers (subject w))) ->
  callee (objects w) l = Some f ->
  (forall v w0, body f v w0 = []) ->
  length (_observers (subject w)) + 3 < fuel ->
  exists w1 w2 o1 o2,
    exec body fuel (Subscribe l) w = (w1, Returned (RSubscription {| observer := o1 |})) /\
    exec body fuel (Subscribe l) w1 = (w2, Returned (RSubscription {| observer := o2 |})) /\
    o1 <> o2 /\
    method_next (objects w2) o1 = Some f /\
    method_next (objects w2) o2 = Some f /\
    deliveries o1 (events_since w2 (emit_all body fuel vs w2)) = vs /\
    deliveries o2 (events_since w2 (emit_all body fuel vs w2)) = vs /\
    deliveries o1
      (events_since w2
         (emit_all body fuel vs
            (fst (exec body fuel (Unsubscribe {| observer := o1 |}) w2)))) = [] /\
    deliveries o2
      (events_since w2
         (emit_all body fuel vs
            (fst (exec body fuel (Unsubscribe {| observer := o1 |}) w2)))) = vs.
Proof.
  intros Hreach Hall Hl Hquiet Hfuel.
  destruct fuel as [| n]; [lia |].
  set (wr := {| code := None; next_prop := Some l |}).
  destruct (wrapWithObserver_function _ _ _ Hl) as [Hwrap1 Hm1]. fold wr in Hwrap1, Hm1.
  set (o1 := length (objects w)) in *.
  set (h1 := objects w ++ [wr]) in *.
  assert (Hq1 : quiet body h1 o1) by (exists f; split; assumption).
  set (w1 := subscribed o1 h1 w).
  destruct (subscribed_ready w o1 h1 [wr] Hreach Hall eq_refl Hq1)
    as (Hall1 & Hnd1 & Hin1 & Hlen1). fold w1 in Hall1, Hnd1, Hin1, Hlen1.
  assert (Hobj1 : objects w1 = h1) by apply subscribed_objects.
  assert (Hl1 : callee (objects w1) l = Some f) by (rewrite Hobj1; now apply callee_grows).
  destruct (wrapWithObserver_function _ _ _ Hl1) as [Hwrap2 Hm2]. fold wr in Hwrap2, Hm2.
  set (o2 := length (objects w1)) in *.
  set (h2 := objects w1 ++ [wr]) in *.
  assert (Hq2 : quiet body h2 o2) by (exists f; split; assumption).
  set (w2 := subscribed o2 h2 w1).
  assert (Hreach1 : reachable undefined body w1).
  { replace w1 with (fst (run (exec body (S n)) [CallSubscribe l] w)); [apply reach_run, Hreach |].
    simpl run.
    change (subscribe body (exec body n) l w) with (exec body (S n) (Subscribe l) w).
    now rewrite (subscribe_quiet w l o1 h1 n Hwrap1 Hq1). }
  destruct (subscribed_ready w1 o2 h2 [wr] Hreach1 Hall1 eq_refl Hq2)
    as (Hall2 & Hnd2 & Hin2 & Hlen2). fold w2 in Hall2, Hnd2, Hin2, Hlen2.
  assert (Hobj2 : objects w2 = h2) by apply subscribed_objects.
  assert (Hobs2 : _observers (subject w2) = Set_add (_observers (subject w1)) o2)
    by apply subscribed_observers.
  assert (Hne : o1 <> o2).
  { unfold o2. rewrite Hobj1. unfold h1, o1. rewrite length_app. simpl. lia. }
  assert (Hin12 : In o1 (members (_observers (subject w2)))).
  { rewrite Hobs2. apply Set_add_In. now right. }
  exists w1, w2, o1, o2.
  split; [now apply subscribe_quiet |].
  split; [now apply subscribe_quiet |].
  split; [exact Hne |].
  split; [rewrite Hobj2; unfold h2; apply method_next_app; now rewrite Hobj1 |].
  split; [now rewrite Hobj2 |].
  split; [apply emit_all_deliveries; [exact Hall2 | exact Hnd2 | lia | exact Hin12] |].
  split; [apply emit_all_deliveries; [exact Hall2 | exact Hnd2 | lia | exact Hin2] |].
  simpl exec. unfold unsubscribe. simpl fst.
  set (w3 := set_observers (Set_delete (_observers (subject w2)) o1) w2).
  assert (Hall3 : Forall (quiet body (objects w3)) (members (_observers (subject w3)))).
  { apply Forall_forall. intros p Hp. unfold w3 in Hp. simpl in Hp.
    apply Set_delete_In in Hp as [Hp _]. now apply (proj1 (Forall_forall _ _) Hall2). }
  assert (Hlen3 : length (_observers (subject w3)) + 1 < S n).
  { unfold w3. simpl. rewrite Set_delete_length. lia. }
  split.
  - apply (emit_all_quiet value undefined body (S n) vs w3 Hall3 Hlen3).
    unfold w3. simpl. rewrite Set_delete_In. tauto.
  - apply (emit_all_deliveries (S n) o2 vs w3 Hall3); [| exact Hlen3 |].
    + unfold w3. simpl. now apply Set_delete_NoDup.
    + unfold w3. simpl. apply Set_delete_In. split; [exact Hin2 | now apply not_eq_sym].
Qed.

(** X5: [subscribe] does not check its argument.  On a Subject that has
    not started, a listener that is no function and has no [next] method is
    registered without an error; the error comes with the next emission,
    which calls the observers registered before it and then throws a
    TypeError. *)
Theorem listener_without_next_fails_at_emission w l fuel v :
  Forall (quiet body (objects w)) (members (_observers (subject w))) ->
  typeof_function (objects w) l = false ->
  method_next (objects w) l = None ->
  _hasStarted (subject w) = false ->
  length (_observers (subject w)) + 2 < fuel ->
  exists w1,
    exec body fuel (Subscribe l) w = (w1, Returned (RSubscription {| observer := l |})) /\
    trace w1 = trace w /\
    In l (members (_observers (subject w1))) /\
    exec body fuel (Next v) w1
    = (delivered (members (_observers (subject w))) v (emitting v w1), Threw TypeError).
Proof.
  intros Hq Hty Hm Hstart Hfuel.
  assert (Hnot : Set_has (_observers (subject w)) l = false).
  { destruct (Set_has (_observers (subject w)) l) eqn:E; [| reflexivity].
    apply Set_has_In in E.
    destruct (proj1 (Forall_forall _ _) Hq l E) as (f & Hf & _). congruence. }
  set (w1 := set_observers (_observers (subject w) ++ [Some l]) (set_objects (objects w) w)).
  exists w1.
  assert (E1 : exec body fuel (Subscribe l) w
               = (w1, Returned (RSubscription {| observer := l |}))).
  { destruct fuel as [| n]; [lia |]. simpl. unfold subscribe.
    rewrite (wrapWithObserver_object _ _ Hty). simpl. rewrite Hstart. simpl.
    unfold Set_add. now rewrite Hnot. }
  split; [exact E1 |]. split; [reflexivity |]. split.
  { unfold w1. simpl. rewrite members_app. apply in_or_app. right. now left. }
  destruct fuel as [| n]; [lia |]. simpl. unfold next.
  change (set_lastValue v (set_hasStarted true (log (Emit v) w1))) with (emitting v w1).
  replace n with (length (_observers (subject w)) + S (n - length (_observers (subject w)) - 1))
    by lia.
  rewrite (forEach_quiet_prefix value body (_observers (subject w)) 0 (emitting v w1)
             [Some l] v); [| reflexivity | exact Hq].
  simpl. unfold Set_forEach. rewrite delivered_subject. simpl.
  rewrite nth_error_app2, Nat.sub_diag by lia. simpl.
  unfold invoke_next. rewrite delivered_objects. simpl. now rewrite Hm.
Qed.

End Theory.

End SubjectLifecycle.

(** ** The Subscriptions of dist *)
Module SubscriptionTheory.
Import Js SetFacts IndefiniteObservable ObservableTheory.

Section Theory.

Variable env : Environment.

Implicit Types w : World.

Lemma close_other i j : forall scs, i <> j -> nth_error (close i scs) j = nth_error scs j.
Proof.
  revert j; induction i as [| i IH]; intros j [| s scs] H; try reflexivity.
  - destruct j; [now elim H | reflexivity].
  - destruct j as [| j]; [reflexivity |]. simpl. apply IH. congruence.
Qed.

Lemma run_closed_noop i fuel n w :
  is_closed i w ->
  run (exec env (S fuel)) (repeat (Call (Unsubscribe (Guarded i))) n) w
  = (w, Returned RUndefined).
Proof.
  intros Hc. induction n as [| n IH]; [reflexivity |].
  cbn [repeat run]. now rewrite (unsubscribe_closed_noop env i fuel w Hc).
Qed.

(** X6: a Subscription of dist is used up by its first [unsubscribe] call,
    however that call ended (the disconnect function may have thrown, may
    not be a function at all, may have called the library) and whatever is
    called afterwards: every later [unsubscribe] returns [undefined], calls
    nothing and changes nothing. *)
Theorem closed_subscription_stays_closed i sc w fuel fuel' fuel'' acts :
  nth_error (scopes w) i = Some sc ->
  exec env (S fuel'') (Unsubscribe (Guarded i))
    (fst (run (exec env fuel') acts (fst (exec env (S fuel) (Unsubscribe (Guarded i)) w))))
  = (fst (run (exec env fuel') acts (fst (exec env (S fuel) (Unsubscribe (Guarded i)) w))),
     Returned RUndefined).
Proof.
  intros H. apply unsubscribe_closed_noop.
  apply (run_preserves (is_closed i)).
  - intros c w0. apply is_closed_stays.
  - now apply (unsubscribe_closes env i fuel w sc).
Qed.

(** X7: [closed = true] is written before [disconnect()] is called, so a
    disconnect function that calls [unsubscribe] on its own Subscription,
    any number of times, finds it closed: the outer call returns and
    disconnect has been called once. *)
Theorem reentrant_unsubscribe_returns i sc fd n w fuel :
  nth_error (scopes w) i = Some sc ->
  closed sc = false ->
  callee (objects w) (disconnect sc) = Some fd ->
  (forall h t, disconnect_body env fd h t = repeat (Call (Unsubscribe (Guarded i))) n) ->
  exec env (S (S fuel)) (Unsubscribe (Guarded i)) w
  = (log (Disconnect (disconnect sc)) (set_closed i w), Returned RUndefined).
Proof.
  intros H Hopen Hd Hbody. cbn [exec dispatch]. unfold unsubscribe.
  rewrite H, Hopen. cbn [negb]. unfold call_disconnect.
  change (objects (set_closed i w)) with (objects w). rewrite Hd. cbv zeta.
  rewrite Hbody.
  change (dispatch env (exec env fuel)) with (exec env (S fuel)).
  apply run_closed_noop.
  exists {| disconnect := disconnect sc; closed := true |}. split; [| reflexivity].
  cbn [log set_closed scopes]. now apply close_closes.
Qed.

(** X8: Subscriptions are independent.  With disconnect functions that do
    not call the library, unsubscribing one open Subscription calls its
    disconnect function and leaves every other Subscription as it was, so
    that unsubscribing another one afterwards calls that one's disconnect
    function. *)
Theorem unsubscribe_leaves_other_subscriptions i j sc sc' fi fj w fuel :
  i <> j ->
  nth_error (scopes w) i = Some sc -> closed sc = false ->
  nth_error (scopes w) j = Some sc' -> closed sc' = false ->
  callee (objects w) (disconnect sc) = Some fi ->
  callee (objects w) (disconnect sc') = Some fj ->
  (forall f h t, disconnect_body env f h t = []) ->
  nth_error (scopes (fst (exec env (S fuel) (Unsubscribe (Guarded i)) w))) j = Some sc' /\
  events_since w
    (fst (exec env (S fuel) (Unsubscribe (Guarded j))
            (fst (exec env (S fuel) (Unsubscribe (Guarded i)) w))))
  = [Disconnect (disconnect sc); Disconnect (disconnect sc')].
Proof.
  intros Hij Hi Hoi Hj Hoj Hfi Hfj Hq.
  assert (E1 : exec env (S fuel) (Unsubscribe (Guarded i)) w
               = (log (Disconnect (disconnect sc)) (set_closed i w), Returned RUndefined)).
  { cbn [exec dispatch]. unfold unsubscribe. rewrite Hi, Hoi. cbn [negb].
    now apply (call_disconnect_quiet env _ _ _ fi). }
  rewrite E1. cbn [fst].
  assert (Hj' : nth_error (scopes (log (Disconnect (disconnect sc)) (set_closed i w))) j
                = Some sc').
  { cbn [log set_closed scopes]. now rewrite close_other. }
  split; [exact Hj' |].
  cbn [exec dispatch]. unfold unsubscribe. rewrite Hj', Hoj. cbn [negb].
  rewrite (call_disconnect_quiet env _ _ _ fj); [| exact Hfj | exact (Hq fj)].
  apply session_events. cbn [fst log set_closed trace]. now rewrite <- app_assoc.
Qed.

End Theory.

End SubscriptionTheory.

(** ** The interoperability tag *)
Module SymbolObservableTheory.
Import String.StringSyntax SymbolObservable.

Local Open Scope string_scope.

Lemma read_set_observable f k st :
  truthy k = true -> read_observable (set_observable f k st) f = Some k.
Proof.
  intros Hk. unfold read_observable, set_observable. simpl.
  now rewrite Nat.eqb_refl, Hk.
Qed.

Lemma read_observable_truthy st f k : read_observable st f = Some k -> truthy k = true.
Proof.
  unfold read_observable. destruct (observable st f) as [k' |]; [| discriminate].
  destruct (truthy k') eqn:E; [| discriminate]. intros H. inversion H. now subst.
Qed.

(** X9: libraries that find the same [Symbol] function agree on the key.
    The first [symbolObservablePonyfill] call stores the key it made in
    [Symbol.observable]; every later call, through any root object with
    that [Symbol] (or both without one), returns the same key and changes
    nothing. *)
Theorem libraries_sharing_Symbol_agree r1 r2 st :
  Symbol r1 = Symbol r2 ->
  symbolObservablePonyfill r2 (snd (symbolObservablePonyfill r1 st))
  = (fst (symbolObservablePonyfill r1 st), snd (symbolObservablePonyfill r1 st)).
Proof.
  intros H. unfold symbolObservablePonyfill. rewrite <- H.
  destruct (Symbol r1) as [f |]; [| reflexivity].
  destruct (read_observable st f) as [k |] eqn:E; simpl.
  - now rewrite E.
  - now rewrite read_set_observable.
Qed.

(** X10: the initializer of [$observable] in dist assigns to a variable
    [result] that the file does not declare, in strict code.  In a realm
    without a global [result] it throws a ReferenceError on every path, and
    no [Symbol.observable] has been installed when it does. *)
Theorem dist_initializer_throws_without_global_result rl st :
  result st = None ->
  fst (dist_observable rl st) = None /\
  (forall f, observable (snd (dist_observable rl st)) f = observable st f) /\
  result (snd (dist_observable rl st)) = None.
Proof.
  intros H. unfold dist_observable, assign_result, new_symbol. simpl. rewrite H.
  destruct (Symbol (dist_root rl)) as [f |]; [| now repeat split].
  destruct (read_observable st f); now repeat split.
Qed.

(** X11: where a global [result] exists, the initializer of dist computes
    what [symbolObservablePonyfill] computes on the root it chose: the same
    key, the same [Symbol.observable], the same symbols; and it has
    overwritten the global [result] with the key. *)
Theorem dist_initializer_is_the_ponyfill rl st v :
  result st = Some v ->
  fst (dist_observable rl st) = Some (fst (symbolObservablePonyfill (dist_root rl) st)) /\
  (forall f, observable (snd (dist_observable rl st)) f
             = observable (snd (symbolObservablePonyfill (dist_root rl) st)) f) /\
  created (snd (dist_observable rl st))
  = created (snd (symbolObservablePonyfill (dist_root rl) st)) /\
  result (snd (dist_observable rl st))
  = Some (Some (fst (symbolObservablePonyfill (dist_root rl) st))).
Proof.
  intros H.
  unfold dist_observable, symbolObservablePonyfill, assign_result, new_symbol. simpl.
  rewrite H.
  destruct (Symbol (dist_root rl)) as [f |]; [| now repeat split].
  destruct (read_observable st f); now repeat split.
Qed.

(** X12: the bundle's outer function declares its own [global]
    ([window || self || {}]), which hides the global object from
    [lib/index.js].  Where neither [self] nor [window] is defined, as in
    Node, the bundle's key is the string ['@@observable'] whatever [Symbol]
    the realm has, and nothing is installed. *)
Theorem bundle_ignores_Symbol_without_self_and_window rl st :
  self rl = None -> window rl = None ->
  bundle_observable rl st = (Str "@@observable", st).
Proof.
  intros Hs Hw. unfold bundle_observable, bundle_root, bundle_global.
  now rewrite Hs, Hw.
Qed.

End SymbolObservableTheory.

(** ** The module runtime of the bundle *)
Module PundleTheory.
Import String.StringSyntax Pundle.

Section Theory.

Variable value : Type.
Variable undefined : value.
Variable empty : value.
Variable inherited : path -> bool.
Variable body : cid -> World value -> list (action value).

Implicit Types w : World value.
Implicit Types c : call.
Implicit Types m : module value.
Implicit Types rec : call -> World value -> World value * completion value.

Local Abbreviation exec := (exec value undefined empty inherited body).
Local Abbreviation run := (run value undefined).
Local Abbreviation dispatch := (dispatch value undefined empty inherited body).
Local Abbreviation script := (script value undefined empty inherited body).
Local Abbreviation register := (__sb_pundle_register value inherited).

(** *** The cache *)

Lemma lookup_update p q f (cch : list (path * module value)) :
  lookup value q (update value p f cch)
  = if String.eqb q p then option_map f (lookup value q cch) else lookup value q cch.
Proof.
  induction cch as [| [r m] cch IH]; simpl.
  - now destruct (String.eqb q p).
  - destruct (String.eqb p r) eqn:Epr; simpl.
    + apply String.eqb_eq in Epr. subst r.
      destruct (String.eqb q p) eqn:Eqp; reflexivity.
    + destruct (String.eqb q r) eqn:Eqr.
      * destruct (String.eqb q p) eqn:Eqp; [| reflexivity].
        apply String.eqb_eq in Eqp, Eqr. subst. now rewrite String.eqb_refl in Epr.
      * exact IH.
Qed.

Lemma lookup_update_same p f (cch : list (path * module value)) :
  lookup value p (update value p f cch) = option_map f (lookup value p cch).
Proof. now rewrite lookup_update, String.eqb_refl. Qed.

Lemma lookup_update_other p q f (cch : list (path * module value)) :
  q <> p -> lookup value q (update value p f cch) = lookup value q cch.
Proof.
  intros H. rewrite lookup_update. apply String.eqb_neq in H. now rewrite H.
Qed.

Lemma lookup_app q (c1 c2 : list (path * module value)) :
  lookup value q (c1 ++ c2)
  = match lookup value q c1 with Some m => Some m | None => lookup value q c2 end.
Proof.
  induction c1 as [| [r m] c1 IH]; simpl; [reflexivity |].
  now destruct (String.eqb q r).
Qed.

(** *** Modules that have started stay started *)

Lemma loaded_update p q f w :
  (forall m v, exports value m = Exports v -> exists v', exports value (f m) = Exports v') ->
  loaded value q w -> loaded value q (update_module value p f w).
Proof.
  intros Hf (m & v & Hm & Hv). unfold loaded, update_module. simpl.
  rewrite lookup_update. destruct (String.eqb q p).
  - rewrite Hm. simpl. destruct (Hf m v Hv) as [v' Hv']. now exists (f m), v'.
  - now exists m, v.
Qed.

Lemma loaded_register p cb q w :
  loaded value q w -> loaded value q (register p cb w).
Proof.
  intros H. unfold __sb_pundle_register.
  destruct (lookup value p (cache value w)) eqn:E.
  - apply loaded_update; [| exact H]. intros m0 v Hv. now exists v.
  - destruct (inherits value inherited w p); [exact H |].
    destruct H as (m & v & Hm & Hv). exists m, v. simpl. rewrite lookup_app, Hm. now split.
Qed.

Lemma loaded_exports_of p w : loaded value p w -> exports_of value p w <> DefaultExport.
Proof.
  intros (m & v & Hm & Hv). unfold exports_of. rewrite Hm, Hv. discriminate.
Qed.

(** *** What every run preserves *)

Section Invariant.

Variable P : World value -> Prop.
Variable ok : call -> Prop.

Hypothesis P_register : forall p cb w,
  ok (Register p cb) -> P w -> P (register p cb w).
Hypothesis P_parent : forall fromModule p m w,
  P w -> lookup value p (cache value w) = Some m ->
  not_among fromModule (parents value m) = true ->
  String.eqb fromModule "$root" = false ->
  P (update_module value p (push_parent value fromModule) w).
Hypothesis P_start : forall p m w,
  P w -> lookup value p (cache value w) = Some m -> exports value m = DefaultExport ->
  P (log value (Ran p (callback value m))
       (update_module value p (set_exports value (Exports empty)) w)).
Hypothesis P_exports : forall p v w,
  P w -> P (update_module value p (set_exports value (Exports v)) w).
Hypothesis body_ok : forall cb w a, In a (body cb w) -> calls_only value ok a.

Lemma run_invariant rec :
  sound rec -> preserves P ok rec ->
  forall this acts w,
    (forall a, In a acts -> calls_only value ok a) -> P w -> P (fst (run rec this acts w)).
Proof.
  intros Hs Hp this acts.
  induction acts as [| a rest IH]; intros w Hok Hw; [exact Hw |].
  assert (Hrest : forall a', In a' rest -> calls_only value ok a')
    by (intros a' Ha'; apply Hok; now right).
  pose proof (Hok a (or_introl eq_refl)) as Ha.
  destruct a as [c | v | fromModule request | e]; simpl in *.
  - pose proof (Hp c w Ha Hw) as H1.
    destruct (rec c w) as [w1 [r | e | ]]; simpl in *; auto.
  - apply IH; auto.
  - pose proof (Hp _ w Ha Hw) as H1. pose proof (Hs (Require fromModule request) w) as H2.
    destruct (rec (Require fromModule request) w) as [w1 [r | e | ]]; simpl in *; auto.
    destruct r as [| v]; [now elim H2 |]. apply IH; auto.
  - exact Hw.
Qed.

Lemma dispatch_invariant rec : sound rec -> preserves P ok rec -> preserves P ok (dispatch rec).
Proof.
  intros Hs Hp [fromModule request | p cb] w Hc Hw; simpl; [| now apply P_register].
  unfold __sb_pundle_require_module.
  destruct (lookup value request (cache value w)) as [m |] eqn:Em; [| exact Hw].
  set (w1 := if not_among fromModule (parents value m)
                && negb (String.eqb fromModule "$root")
             then update_module value request (push_parent value fromModule) w else w).
  assert (Hw1 : P w1).
  { unfold w1. destruct (not_among fromModule (parents value m)) eqn:E1; [| exact Hw].
    destruct (String.eqb fromModule "$root") eqn:E2; [exact Hw |]. simpl.
    now apply (P_parent fromModule request m). }
  assert (Em1 : exists m1, lookup value request (cache value w1) = Some m1 /\
                           exports value m1 = exports value m /\
                           callback value m1 = callback value m).
  { unfold w1. destruct (_ && _).
    - exists (push_parent value fromModule m). simpl. rewrite lookup_update_same, Em. now repeat split.
    - now exists m. }
  destruct Em1 as (m1 & Em1 & Ex1 & Ec1).
  destruct (exports value m) as [| v] eqn:Ex; [| exact Hw1].
  rewrite <- Ec1.
  pose proof (P_start request m1 w1 Hw1 Em1 Ex1) as Hw2.
  set (w2 := log value (Ran request (callback value m1))
               (update_module value request (set_exports value (Exports empty)) w1)) in *.
  pose proof (run_invariant rec Hs Hp request (body (callback value m1) w2) w2
                (body_ok _ _) Hw2) as H3.
  destruct (run rec request (body (callback value m1) w2) w2) as [w3 [r | e | ]];
    simpl in *; exact H3.
Qed.

End Invariant.

Lemma calls_only_True (a : action value) : calls_only value (fun _ => True) a.
Proof. now destruct a. Qed.

Lemma exec_sound_loaded fuel :
  sound (exec fuel) /\
  forall p, preserves (loaded value p) (fun _ => True) (exec fuel).
Proof.
  induction fuel as [| n [IHs IHp]].
  - split; [intros c w; discriminate | intros p c w _ H; exact H].
  - assert (Hrun : forall p this acts w,
              loaded value p w -> loaded value p (fst (run (exec n) this acts w))).
    { intros p this acts w H.
      apply (run_invariant (loaded value p) (fun _ => True)); auto.
      - intros q v w0. apply loaded_update. intros m v0 _. now exists v.
      - intros a _. apply calls_only_True. }
    split.
    + intros [fromModule request | p cb] w; simpl; [| discriminate].
      unfold __sb_pundle_require_module.
      destruct (lookup value request (cache value w)) as [m |] eqn:Em; [| discriminate].
      destruct (exports value m) as [| v] eqn:Ex; [| discriminate].
      match goal with |- context [run _ request ?acts ?w2] =>
        pose proof (Hrun request request acts w2) as H3;
        destruct (run (exec n) request acts w2) as [w3 [r | e | ]]
      end; simpl in *; try discriminate.
      intros Heq. apply (loaded_exports_of request w3); [| congruence].
      apply H3. unfold loaded, log, update_module. simpl.
      destruct (_ && _); simpl.
      * rewrite lookup_update_same, lookup_update_same, Em. simpl. now eexists _, empty.
      * rewrite lookup_update_same, Em. simpl. now eexists _, empty.
    + intros p. apply dispatch_invariant; auto.
      * intros q cb w _. apply loaded_register.
      * intros fromModule q m w H _ _ _. revert H. apply loaded_update.
        intros m0 v Hv. now exists v.
      * intros q m w H _ _. revert H. apply loaded_update. intros m0 v _. now exists empty.
      * intros q v w. apply loaded_update. intros m0 v0 _. now exists v.
      * intros cb w a _. apply calls_only_True.
Qed.

Lemma exec_sound fuel : sound (exec fuel).
Proof. apply exec_sound_loaded. Qed.

Lemma exec_loaded fuel p c w :
  loaded value p w -> loaded value p (fst (exec fuel c w)).
Proof. intros H. now apply (proj2 (exec_sound_loaded fuel) p c w I). Qed.

Section Reachable.

Variable P : World value -> Prop.
Variable ok : call -> Prop.

Hypothesis P_register : forall p cb w,
  ok (Register p cb) -> P w -> P (register p cb w).
Hypothesis P_parent : forall fromModule p m w,
  P w -> lookup value p (cache value w) = Some m ->
  not_among fromModule (parents value m) = true ->
  String.eqb fromModule "$root" = false ->
  P (update_module value p (push_parent value fromModule) w).
Hypothesis P_start : forall p m w,
  P w -> lookup value p (cache value w) = Some m -> exports value m = DefaultExport ->
  P (log value (Ran p (callback value m))
       (update_module value p (set_exports value (Exports empty)) w)).
Hypothesis P_exports : forall p v w,
  P w -> P (update_module value p (set_exports value (Exports v)) w).
Hypothesis body_ok : forall cb w a, In a (body cb w) -> calls_only value ok a.

Lemma exec_invariant fuel : preserves P ok (exec fuel).
Proof.
  induction fuel as [| n IH]; [intros c w _ H; exact H |].
  apply dispatch_invariant; auto. apply exec_sound.
Qed.

End Reachable.

Lemma script_invariant (P : World value -> Prop) (ok : call -> Prop) fuel :
  preserves P ok (exec fuel) ->
  forall calls w, (forall c, In c calls -> ok c) -> P w -> P (fst (script fuel calls w)).
Proof.
  intros Hp calls. induction calls as [| c rest IH]; intros w Hok Hw; [exact Hw |]. simpl.
  pose proof (Hp c w (Hok c (or_introl eq_refl)) Hw) as H1.
  destruct (exec fuel c w) as [w1 [r | e | ]]; simpl in *; auto.
Qed.

(** *** Callbacks run once *)

Lemma ran_app t1 t2 : ran (t1 ++ t2) = ran t1 ++ ran t2.
Proof. apply map_app. Qed.

Lemma ran_once_cache f w :
  (forall p, loaded value p w -> loaded value p (f w)) ->
  trace value (f w) = trace value w ->
  ran_once w -> ran_once (f w).
Proof.
  intros Hl Ht [Hnd Hin]. unfold ran_once. rewrite Ht. split; [exact Hnd |].
  intros p Hp. apply Hl, Hin, Hp.
Qed.

Lemma register_trace p cb w : trace value (register p cb w) = trace value w.
Proof.
  unfold __sb_pundle_register. destruct (lookup value p (cache value w)); [reflexivity |].
  now destruct (inherits value inherited w p).
Qed.

Lemma ran_once_preserved fuel c w : ran_once w -> ran_once (fst (exec fuel c w)).
Proof.
  intros H. apply (exec_invariant ran_once (fun _ => True)); auto.
  - intros p cb w0 _. apply (ran_once_cache (register p cb)).
    + intros q. apply loaded_register.
    + apply register_trace.
  - intros fromModule p m w0 H0 _ _ _. revert H0.
    apply (ran_once_cache (update_module value p (push_parent value fromModule))); [| reflexivity].
    intros q. apply loaded_update. intros m0 v Hv. now exists v.
  - intros p m w0 [Hnd Hin] Hm Hx. split.
    + simpl. rewrite ran_app. simpl.
      apply NoDup_app; [exact Hnd | repeat constructor; intros [] |].
      intros q Hq [E | []]. subst q.
      destruct (Hin p Hq) as (m' & v & Hm' & Hv). congruence.
    + intros q Hq. simpl in Hq. rewrite ran_app in Hq. apply in_app_or in Hq.
      destruct Hq as [Hq | [<- | []]].
      * apply (loaded_update p q (set_exports value (Exports empty)) w0);
          [intros m0 v _; now exists empty | now apply Hin].
      * exists (set_exports value (Exports empty) m), empty. simpl.
        rewrite lookup_update_same, Hm. now split.
  - intros p v w0.
    apply (ran_once_cache (update_module value p (set_exports value (Exports v)))); [| reflexivity].
    intros q. apply loaded_update. intros m0 v0 _. now exists v.
  - intros cb w0 a _. apply calls_only_True.
Qed.

(** X13: a module runs once.  Whatever the bundle's script registers and
    requires, and whatever the callbacks do (require each other in a
    circle, register modules, register a path again, throw), no callback
    runs for a path whose module has run before. *)
Theorem module_runs_at_most_once fuel calls :
  NoDup (ran (trace value (fst (script fuel calls init)))).
Proof.
  assert (H : ran_once (fst (script fuel calls init))).
  { apply (script_invariant ran_once (fun _ => True)); auto.
    - intros c w _. apply ran_once_preserved.
    - split; [constructor | intros p []]. }
  apply H.
Qed.
(** *** Requiring returns *)

Lemma unloaded_update_le p f w :
  (forall m, is_default value (exports value (f m)) = true ->
             is_default value (exports value m) = true) ->
  unloaded value (update_module value p f w) <= unloaded value w.
Proof.
  intros Hf. unfold unloaded, update_module. simpl.
  induction (cache value w) as [| [q m] cch IH]; simpl; [lia |].
  destruct (String.eqb p q); simpl.
  - destruct (is_default value (exports value (f m))) eqn:E.
    + rewrite (Hf m E). simpl. lia.
    + destruct (is_default value (exports value m)); simpl; lia.
  - destruct (is_default value (exports value m)); simpl; lia.
Qed.

Lemma unloaded_update_lt p f m w :
  lookup value p (cache value w) = Some m ->
  exports value m = DefaultExport ->
  is_default value (exports value (f m)) = false ->
  unloaded value (update_module value p f w) < unloaded value w.
Proof.
  intros Hm Hx Hf. unfold unloaded, update_module. simpl.
  induction (cache value w) as [| [q m'] cch IH]; simpl in *; [discriminate |].
  destruct (String.eqb p q); simpl.
  - inversion Hm. subst m'. rewrite Hf, Hx. simpl. lia.
  - specialize (IH Hm). destruct (is_default value (exports value m')); simpl; lia.
Qed.

Lemma unloaded_exec fuel c w :
  (forall cb w0 a, In a (body cb w0) -> calls_only value is_require a) ->
  is_require c ->
  unloaded value (fst (exec fuel c w)) <= unloaded value w.
Proof.
  intros Hbody Hc.
  apply (exec_invariant (fun w' => unloaded value w' <= unloaded value w) is_require);
    auto.
  - intros p cb w0 [].
  - intros fromModule p m w0 H _ _ _.
    pose proof (unloaded_update_le p (push_parent value fromModule) w0 (fun m0 E => E)). lia.
  - intros p m w0 H _ _.
    pose proof (unloaded_update_le p (set_exports value (Exports empty)) w0) as H1.
    unfold unloaded in *. simpl in *.
    assert (forall m0 : module value, false = true -> is_default value (exports value m0) = true)
      by (intros; discriminate).
    specialize (H1 H0). lia.
  - intros p v w0 H.
    pose proof (unloaded_update_le p (set_exports value (Exports v)) w0) as H1.
    assert (forall m0 : module value, false = true -> is_default value (exports value m0) = true)
      by (intros; discriminate).
    specialize (H1 H0). lia.
Qed.

Lemma exec_terminates :
  (forall cb w0 a, In a (body cb w0) -> calls_only value is_require a) ->
  forall fuel c w, unloaded value w < fuel -> snd (exec fuel c w) <> Diverged.
Proof.
  intros Hbody. induction fuel as [| n IH]; intros c w Hlt; [lia |].
  assert (Hrun : forall this acts w',
            (forall a, In a acts -> calls_only value is_require a) ->
            unloaded value w' < n ->
            snd (run (exec n) this acts w') <> Diverged).
  { intros this acts. induction acts as [| a rest IHa]; intros w' Hok Hw'; [discriminate |].
    assert (Hrest : forall a', In a' rest -> calls_only value is_require a')
      by (intros a' Ha'; apply Hok; now right).
    pose proof (Hok a (or_introl eq_refl)) as Ha.
    destruct a as [c' | v | fromModule request | e]; simpl in *.
    - pose proof (IH c' w' Hw') as H1.
      pose proof (unloaded_exec n c' w' Hbody Ha) as H2.
      destruct (exec n c' w') as [w1 [r | e | ]]; simpl in *;
        [apply IHa; [exact Hrest | lia] | discriminate | exact H1].
    - apply IHa; [exact Hrest |].
      pose proof (unloaded_update_le this (set_exports value (Exports v)) w') as H1.
      assert (forall m0 : module value,
                false = true -> is_default value (exports value m0) = true)
        by (intros; discriminate).
      specialize (H1 H). lia.
    - pose proof (IH (Require fromModule request) w' Hw') as H1.
      pose proof (unloaded_exec n (Require fromModule request) w' Hbody I) as H2.
      pose proof (exec_sound n (Require fromModule request) w') as H3.
      destruct (exec n (Require fromModule request) w') as [w1 [r | e | ]]; simpl in *;
        [| discriminate | exact H1].
      destruct r as [| v]; [now elim H3 |].
      apply IHa; [exact Hrest |].
      pose proof (unloaded_update_le this (set_exports value (Exports v)) w1) as H4.
      assert (forall m0 : module value,
                false = true -> is_default value (exports value m0) = true)
        by (intros; discriminate).
      specialize (H4 H). lia.
    - discriminate. }
  destruct c as [fromModule request | p cb]; simpl; [| discriminate].
  unfold __sb_pundle_require_module.
  destruct (lookup value request (cache value w)) as [m |] eqn:Em; [| discriminate].
  destruct (exports value m) as [| v] eqn:Ex; [| discriminate].
  match goal with |- context [run _ request ?acts ?w2] =>
    assert (Hw2 : unloaded value w2 < n);
    [| pose proof (Hrun request acts w2 (Hbody _ _) Hw2) as H3;
       destruct (run (exec n) request acts w2) as [w3 [r | e | ]] ]
  end; simpl in *; try discriminate; [| exact H3].
  change (unloaded value
            (update_module value request (set_exports value (Exports empty))
               (if not_among fromModule (parents value m)
                   && negb (String.eqb fromModule "$root")
                then update_module value request (push_parent value fromModule) w
                else w)) < n).
  destruct (_ && _).
  - pose proof (unloaded_update_le request (push_parent value fromModule) w (fun m0 E => E)) as H1.
    pose proof (unloaded_update_lt request (set_exports value (Exports empty))
                  (push_parent value fromModule m)
                  (update_module value request (push_parent value fromModule) w)) as H2.
    simpl in H2. rewrite lookup_update_same, Em in H2.
    specialize (H2 eq_refl Ex eq_refl). lia.
  - pose proof (unloaded_update_lt request (set_exports value (Exports empty)) m w
                  Em Ex eq_refl). lia.
Qed.

(** X14: requiring returns.  While callbacks only require modules and
    write their exports, a [__require] call comes back, also when modules
    require each other in a circle: it returns an exports value, never the
    default export that marks a module as not yet run, or it throws.  The
    nesting of calls is bounded by the number of modules that have not
    run. *)
Theorem require_returns_or_throws fuel fromModule request w :
  (forall cb w0 a, In a (body cb w0) -> calls_only value is_require a) ->
  unloaded value w < fuel ->
  (exists v, snd (exec fuel (Require fromModule request) w) = Returned (Exports v)) \/
  (exists e, snd (exec fuel (Require fromModule request) w) = Threw e).
Proof.
  intros Hbody Hlt.
  pose proof (exec_terminates Hbody fuel (Require fromModule request) w Hlt) as H1.
  pose proof (exec_sound fuel (Require fromModule request) w) as H2.
  destruct (snd (exec fuel (Require fromModule request) w)) as [[| v] | e | ].
  - now elim H2.
  - left. now exists v.
  - right. now exists e.
  - now elim H1.
Qed.

(** *** Requiring registered modules *)

Lemma registered_update p q f w :
  registered value q w -> registered value q (update_module value p f w).
Proof.
  unfold registered, update_module. simpl. rewrite lookup_update.
  destruct (String.eqb q p); [| trivial].
  destruct (lookup value q (cache value w)); [discriminate | trivial].
Qed.

Lemma registered_register p cb q w :
  registered value q w -> registered value q (register p cb w).
Proof.
  intros H. unfold __sb_pundle_register.
  destruct (lookup value p (cache value w)) eqn:E.
  - now apply registered_update.
  - destruct (inherits value inherited w p); [exact H |].
    unfold registered in *. simpl. rewrite lookup_app.
    destruct (lookup value q (cache value w)); [discriminate | now elim H].
Qed.

Lemma registered_exec fuel c q w :
  registered value q w -> registered value q (fst (exec fuel c w)).
Proof.
  intros H. apply (exec_invariant (registered value q) (fun _ => True)); auto.
  - intros p cb w0 _. apply registered_register.
  - intros fromModule p m w0 H0 _ _ _. now apply registered_update.
  - intros p m w0 H0 _ _. now apply (registered_update p q _ w0).
  - intros p v w0. apply registered_update.
  - intros cb w0 a _. apply calls_only_True.
Qed.

Lemma requires_registered_calls w a :
  requires_registered value w a -> calls_only value is_require a.
Proof. destruct a as [[f r | p cb] | v | f r | e]; simpl; auto. Qed.

Lemma exec_returns w :
  (forall cb w0 a, In a (body cb w0) -> requires_registered value w a) ->
  forall fuel fromModule request w',
    (forall p, registered value p w -> registered value p w') ->
    registered value request w ->
    unloaded value w' < fuel ->
    exists v, snd (exec fuel (Require fromModule request) w') = Returned (Exports v).
Proof.
  intros Hbody.
  assert (Hcalls : forall cb w0 a, In a (body cb w0) -> calls_only value is_require a).
  { intros cb w0 a Ha. apply (requires_registered_calls w), (Hbody cb w0 a Ha). }
  induction fuel as [| n IH]; intros fromModule request w' HK Hreq Hlt; [lia |].
  assert (Hrun : forall this acts w'',
            (forall a, In a acts -> requires_registered value w a) ->
            (forall p, registered value p w -> registered value p w'') ->
            unloaded value w'' < n ->
            exists r, snd (run (exec n) this acts w'') = Returned r).
  { intros this acts. induction acts as [| a rest IHa]; intros w'' Hok HK'' Hw'';
      [now eexists |].
    assert (Hrest : forall a', In a' rest -> requires_registered value w a')
      by (intros a' Ha'; apply Hok; now right).
    pose proof (Hok a (or_introl eq_refl)) as Ha.
    destruct a as [[f r | p cb] | v | f r | e]; simpl in *; try contradiction.
    - destruct (IH f r w'' HK'' Ha Hw'') as [v Hv].
      pose proof (unloaded_exec n (Require f r) w'' Hcalls I) as H2.
      pose proof (fun p => registered_exec n (Require f r) p w'') as H3.
      destruct (exec n (Require f r) w'') as [w1 c1]. simpl in *. subst c1. simpl.
      apply IHa; [exact Hrest | auto | lia].
    - apply IHa; [exact Hrest | |].
      + intros p Hp. apply registered_update. auto.
      + pose proof (unloaded_update_le this (set_exports value (Exports v)) w'') as H1.
        assert (forall m0 : module value,
                  false = true -> is_default value (exports value m0) = true)
          by (intros; discriminate).
        specialize (H1 H). lia.
    - destruct (IH f r w'' HK'' Ha Hw'') as [v Hv].
      pose proof (unloaded_exec n (Require f r) w'' Hcalls I) as H2.
      pose proof (fun p => registered_exec n (Require f r) p w'') as H3.
      destruct (exec n (Require f r) w'') as [w1 c1]. simpl in *. subst c1. simpl.
      apply IHa; [exact Hrest | |].
      + intros p Hp. apply registered_update. auto.
      + pose proof (unloaded_update_le this (set_exports value (Exports v)) w1) as H1.
        assert (forall m0 : module value,
                  false = true -> is_default value (exports value m0) = true)
          by (intros; discriminate).
        specialize (H1 H). lia. }
  pose proof (exec_sound (S n) (Require fromModule request) w') as Hsound.
  revert Hsound. simpl. unfold __sb_pundle_require_module.
  pose proof (HK request Hreq) as Hr. unfold registered in Hr.
  destruct (lookup value request (cache value w')) as [m |] eqn:Em; [| now elim Hr].
  destruct (exports value m) as [| v] eqn:Ex; [| intros _; now exists v].
  match goal with |- context [run _ request ?acts ?w2] =>
    assert (Hw2 : unloaded value w2 < n /\
                  forall p, registered value p w -> registered value p w2);
    [| destruct Hw2 as [Hw2 HK2];
       destruct (Hrun request acts w2 (Hbody _ _) HK2 Hw2) as [r Hr'];
       destruct (run (exec n) request acts w2) as [w3 c3] ]
  end.
  - split.
    + change (unloaded value
                (update_module value request (set_exports value (Exports empty))
                   (if not_among fromModule (parents value m)
                       && negb (String.eqb fromModule "$root")
                    then update_module value request (push_parent value fromModule) w'
                    else w')) < n).
      destruct (_ && _).
      * pose proof (unloaded_update_le request (push_parent value fromModule) w'
                      (fun m0 E => E)) as H1.
        pose proof (unloaded_update_lt request (set_exports value (Exports empty))
                      (push_parent value fromModule m)
                      (update_module value request (push_parent value fromModule) w')) as H2.
        simpl in H2. rewrite lookup_update_same, Em in H2.
        specialize (H2 eq_refl Ex eq_refl). lia.
      * pose proof (unloaded_update_lt request (set_exports value (Exports empty)) m w'
                      Em Ex eq_refl). lia.
    + intros p Hp.
      change (registered value p
                (update_module value request (set_exports value (Exports empty))
                   (if not_among fromModule (parents value m)
                       && negb (String.eqb fromModule "$root")
                    then update_module value request (push_parent value fromModule) w'
                    else w'))).
      apply registered_update. destruct (_ && _); [apply registered_update |]; auto.
  - simpl in Hr'. subst c3. simpl. intros Hsound.
    destruct (exports_of value request w3) as [| v]; [now elim Hsound | now exists v].
Qed.

(** what [__require] returns is what [module.exports] holds when it returns *)
Lemma require_result fuel fromModule request w e :
  snd (exec fuel (Require fromModule request) w) = Returned e ->
  exports_of value request (fst (exec fuel (Require fromModule request) w)) = e.
Proof.
  destruct fuel as [| n]; [discriminate |]. simpl. unfold __sb_pundle_require_module.
  destruct (lookup value request (cache value w)) as [m |] eqn:Em; [| discriminate].
  destruct (exports value m) as [| v] eqn:Ex.
  - match goal with |- context [run _ request ?acts ?w2] =>
      destruct (run (exec n) request acts w2) as [w3 [r | e' | ]]
    end; simpl; try discriminate. congruence.
  - simpl. intros H. inversion H. subst e. unfold exports_of.
    destruct (_ && _); simpl.
    + now rewrite lookup_update_same, Em.
    + now rewrite Em, Ex.
Qed.

(** X15: requiring a registered module returns its exports.  When the
    callbacks require registered paths only, do not throw and do not
    register, a [__require] of a registered path returns, also when the
    modules require each other in a circle, and it returns what the
    module's [exports] then holds, which is not the default export. *)
Theorem require_returns_exports fuel fromModule request w :
  (forall cb w0 a, In a (body cb w0) -> requires_registered value w a) ->
  registered value request w ->
  unloaded value w < fuel ->
  exists v,
    snd (exec fuel (Require fromModule request) w) = Returned (Exports v) /\
    exports_of value request (fst (exec fuel (Require fromModule request) w)) = Exports v.
Proof.
  intros Hbody Hreq Hlt.
  destruct (exec_returns w Hbody fuel fromModule request w) as [v Hv]; auto.
  exists v. split; [exact Hv | now apply require_result].
Qed.

(** *** Modules that failed, paths that are not registered *)

Lemma run_loaded fuel this acts p w :
  loaded value p w -> loaded value p (fst (run (exec fuel) this acts w)).
Proof.
  intros H. apply (run_invariant (loaded value p) (fun _ => True)); auto.
  - intros q v w0. apply loaded_update. intros m v0 _. now exists v.
  - apply exec_sound.
  - intros c w0 _. apply exec_loaded.
  - intros a _. apply calls_only_True.
Qed.

Lemma require_loaded fuel fromModule p w :
  loaded value p w ->
  exists v w1,
    exec (S fuel) (Require fromModule p) w = (w1, Returned (Exports v)) /\
    trace value w1 = trace value w /\
    exports_of value p w = Exports v.
Proof.
  intros (m & v & Hm & Hv). simpl. unfold __sb_pundle_require_module, exports_of.
  rewrite Hm, Hv. eexists v, _. split; [reflexivity |]. split; [| reflexivity].
  now destruct (_ && _).
Qed.

(** X16: a module whose callback threw is not run again.  [module.exports]
    is set before the callback is called, so after a [__require] that
    threw, the next [__require] of the same path does not throw: it
    returns what the module had exported when it failed, and runs
    nothing. *)
Theorem failed_module_is_not_retried fuel fuel' fromModule fromModule' request w w1 e :
  registered value request w ->
  exec fuel (Require fromModule request) w = (w1, Threw e) ->
  exists v w2,
    exec (S fuel') (Require fromModule' request) w1 = (w2, Returned (Exports v)) /\
    trace value w2 = trace value w1 /\
    exports_of value request w1 = Exports v.
Proof.
  intros Hreg Hexec. apply require_loaded.
  destruct fuel as [| n]; [discriminate |].
  simpl in Hexec. unfold __sb_pundle_require_module in Hexec.
  unfold registered in Hreg.
  destruct (lookup value request (cache value w)) as [m |] eqn:Em; [| now elim Hreg].
  destruct (exports value m) as [| v] eqn:Ex; [| discriminate].
  match type of Hexec with context [run _ request ?acts ?w2] =>
    pose proof (run_loaded n request acts request w2) as H3;
    destruct (run (exec n) request acts w2) as [w3 [r | e' | ]]
  end; simpl in *; try discriminate.
  inversion Hexec. subst w3 e'. apply H3.
  unfold loaded. simpl. destruct (_ && _); simpl.
  - rewrite !lookup_update_same, Em. simpl. now eexists _, empty.
  - rewrite lookup_update_same, Em. simpl. now eexists _, empty.
Qed.

Lemma lookup_update_None p q f (cch : list (path * module value)) :
  lookup value p cch = None -> lookup value p (update value q f cch) = None.
Proof.
  intros H. rewrite lookup_update, H. now destruct (String.eqb p q).
Qed.

Local Open Scope string_scope.

(** where [__proto__] is not inherited, nothing is ever written on the
    prototype *)
Lemma prototype_untouched fuel calls :
  inherited "__proto__" = false ->
  existsb (fun pc => String.eqb (fst pc) "__proto__")
    (inherited_callbacks value (fst (script fuel calls init))) = false.
Proof.
  intros Hproto.
  apply (script_invariant
           (fun w => existsb (fun pc => String.eqb (fst pc) "__proto__")
                       (inherited_callbacks value w) = false)
           (fun _ => True)); auto.
  apply exec_invariant; auto.
  - intros q cb w _ Hw. unfold __sb_pundle_register.
    destruct (lookup value q (cache value w)); [exact Hw |].
    destruct (inherits value inherited w q) eqn:Hq; [| exact Hw].
    cbn [inherited_callbacks]. rewrite existsb_app.
    apply orb_false_intro; [exact Hw |]. cbn [existsb fst]. rewrite orb_false_r.
    destruct (String.eqb q "__proto__") eqn:E; [| reflexivity].
    apply String.eqb_eq in E. subst q.
    unfold inherits in Hq. rewrite Hproto, Hw in Hq. simpl in Hq. discriminate Hq.
  - intros cb w a _. apply calls_only_True.
Qed.

(** X17: only registering makes a path known.  After a script in which
    nothing registers [p], neither the script nor a callback, requiring [p]
    throws and changes nothing: the error "Module not found", or a
    TypeError when [p] is a name the cache object inherits by then.  These
    are the names it inherited from the start and, once [__proto__] has
    been registered while inherited, also [callback]; for every other path
    the names of the start decide. *)
Theorem unregistered_module_is_not_found fuel fuel' calls fromModule p :
  (forall cb w0 a, In a (body cb w0) -> calls_only value (registers_other p) a) ->
  (forall c, In c calls -> registers_other p c) ->
  exec (S fuel') (Require fromModule p) (fst (script fuel calls init))
  = (fst (script fuel calls init),
     Threw (if inherits value inherited (fst (script fuel calls init)) p
            then TypeError else ModuleNotFound)) /\
  (String.eqb p "callback" = false ->
   inherits value inherited (fst (script fuel calls init)) p = inherited p) /\
  (inherited "__proto__" = false ->
   inherits value inherited (fst (script fuel calls init)) p = inherited p).
Proof.
  intros Hbody Hcalls.
  assert (H : lookup value p (cache value (fst (script fuel calls init))) = None).
  { apply (script_invariant (fun w => lookup value p (cache value w) = None)
             (registers_other p)); auto.
    apply exec_invariant; auto.
    - intros q cb w Hq Hw. simpl in Hq. unfold __sb_pundle_register.
      destruct (lookup value q (cache value w)).
      + now apply lookup_update_None.
      + destruct (inherits value inherited w q); [exact Hw |]. simpl.
        rewrite lookup_app, Hw. simpl.
        apply not_eq_sym, String.eqb_neq in Hq. now rewrite Hq.
    - intros f q m w Hw _ _ _. now apply lookup_update_None.
    - intros q m w Hw _ _. now apply (lookup_update_None p q _ (cache value w)).
    - intros q v w Hw. now apply lookup_update_None. }
  split; [| split].
  - simpl. unfold __sb_pundle_require_module. now rewrite H.
  - intros Hp. unfold inherits. rewrite Hp. apply orb_false_r.
  - intros Hproto. unfold inherits.
    rewrite (prototype_untouched fuel calls Hproto), andb_false_r. apply orb_false_r.
Qed.

End Theory.

End PundleTheory.

(** ** Listeners, Subscriptions, the key and the runtime at work *)
Module SubjectLifecycleScenarios.
Import Js IndefiniteSubject SubjectNotions SubjectPrograms SubjectLifecycle.

(** [A] unsubscribed from a Subject with [A] and [B]; then [next(1)],
    [subscribe(B)], [next(2)] *)
Lemma A_unsubscribed_hears_nothing :
  deliveries A
    (events_since (fst (exec silent 1 (Unsubscribe {| observer := A |}) (with_A_B silent)))
       (fst (run (exec silent 3) [CallNext 1; CallSubscribe B; CallNext 2]
               (fst (exec silent 1 (Unsubscribe {| observer := A |}) (with_A_B silent))))))
  = [] /\
  ~ In A (members (_observers (subject
       (fst (run (exec silent 3) [CallNext 1; CallSubscribe B; CallNext 2]
               (fst (exec silent 1 (Unsubscribe {| observer := A |}) (with_A_B silent)))))))).
Proof.
  apply (unsubscribed_observer_is_never_called nat silent (with_A_B silent) A 0 3
           [CallNext 1; CallSubscribe B; CallNext 2]).
  - vm_compute. lia.
  - intros f v w0 [].
  - unfold A, B. intros [H | [H | [H | []]]]; discriminate H.
Defined.

(** the function 0 and the observer [A = { next: 0 }], subscribed after
    [next(1); next(2)], then [next(5); next(6)] *)
Lemma function_0_and_A_receive_2_5_6 :
  exists o w1 w2,
    exec silent 3 (Subscribe 0) after_1_and_2
      = (w1, Returned (RSubscription {| observer := o |})) /\
    exec silent 3 (Subscribe A) after_1_and_2
      = (w2, Returned (RSubscription {| observer := A |})) /\
    deliveries o (events_since after_1_and_2 (emit_all silent 3 [5; 6] w1))
      = replay after_1_and_2 ++ [5; 6] /\
    deliveries A (events_since after_1_and_2 (emit_all silent 3 [5; 6] w2))
      = replay after_1_and_2 ++ [5; 6].
Proof.
  apply (function_and_object_listeners_receive_the_same nat 0 silent after_1_and_2 0 A 0 3
           [5; 6]).
  - apply reach_run, reach_new.
  - apply Forall_nil.
  - reflexivity.
  - reflexivity.
  - reflexivity.
  - reflexivity.
  - vm_compute. lia.
Defined.

(** the function 0 subscribed twice to a new Subject, then [next(1);
    next(2)] *)
Lemma function_0_subscribed_twice :
  exists w1 w2 o1 o2,
    exec silent 4 (Subscribe 0) (new 0 program)
      = (w1, Returned (RSubscription {| observer := o1 |})) /\
    exec silent 4 (Subscribe 0) w1 = (w2, Returned (RSubscription {| observer := o2 |})) /\
    o1 <> o2 /\
    method_next (objects w2) o1 = Some 0 /\
    method_next (objects w2) o2 = Some 0 /\
    deliveries o1 (events_since w2 (emit_all silent 4 [1; 2] w2)) = [1; 2] /\
    deliveries o2 (events_since w2 (emit_all silent 4 [1; 2] w2)) = [1; 2] /\
    deliveries o1
      (events_since w2
         (emit_all silent 4 [1; 2]
            (fst (exec silent 4 (Unsubscribe {| observer := o1 |}) w2)))) = [] /\
    deliveries o2
      (events_since w2
         (emit_all silent 4 [1; 2]
            (fst (exec silent 4 (Unsubscribe {| observer := o1 |}) w2)))) = [1; 2].
Proof.
  apply (function_subscribed_twice_is_called_twice nat 0 silent (new 0 program) 0 0 4 [1; 2]).
  - apply reach_new.
  - apply Forall_nil.
  - reflexivity.
  - reflexivity.
  - simpl. lia.
Defined.

(** [subscribe(9)], where 9 is no object, on a Subject with [A] and [B];
    then [next(1)] *)
Lemma subscribing_a_number_fails_at_next :
  exists w1,
    exec silent 5 (Subscribe 9) (with_A_B silent)
      = (w1, Returned (RSubscription {| observer := 9 |})) /\
    trace w1 = trace (with_A_B silent) /\
    In 9 (members (_observers (subject w1))) /\
    exec silent 5 (Next 1) w1
    = (delivered (members (_observers (subject (with_A_B silent)))) 1 (emitting 1 w1),
       Threw TypeError).
Proof.
  apply (listener_without_next_fails_at_emission nat silent (with_A_B silent) 9 5 1).
  - change (Forall (quiet silent program) [A; B]).
    repeat apply Forall_cons; [exists 0 | exists 1 | apply Forall_nil];
      (split; [reflexivity | intros; reflexivity]).
  - reflexivity.
  - reflexivity.
  - reflexivity.
  - simpl. lia.
Defined.

End SubjectLifecycleScenarios.

Module SubscriptionScenarios.
Import Js IndefiniteObservable ObservablePrograms ObservableFaults SubscriptionTheory.

(** connect returned an object that is not a function: the first
    [unsubscribe] throws a TypeError, and after another [subscribe] the
    second [unsubscribe] of the first Subscription returns *)
Lemma unsubscribe_after_TypeError_returns :
  snd (exec careless 1 (Unsubscribe (Guarded 0)) (subscribed_once careless))
    = Threw TypeError /\
  exec careless 1 (Unsubscribe (Guarded 0))
    (fst (run (exec careless 1) [Call (Subscribe {| _connect := 0 |} 4)]
            (fst (exec careless 1 (Unsubscribe (Guarded 0)) (subscribed_once careless)))))
  = (fst (run (exec careless 1) [Call (Subscribe {| _connect := 0 |} 4)]
            (fst (exec careless 1 (Unsubscribe (Guarded 0)) (subscribed_once careless)))),
     Returned RUndefined).
Proof.
  split; [reflexivity |].
  apply (closed_subscription_stays_closed careless 0 {| disconnect := 5; closed := false |}
           (subscribed_once careless) 0 1 0 [Call (Subscribe {| _connect := 0 |} 4)]).
  reflexivity.
Defined.

(** the disconnect function calls [unsubscribe] on its own Subscription *)
Lemma disconnect_that_unsubscribes_itself :
  exec reentrant 2 (Unsubscribe (Guarded 0)) (subscribed_once reentrant)
  = (log (Disconnect 1) (set_closed 0 (subscribed_once reentrant)), Returned RUndefined).
Proof.
  apply (reentrant_unsubscribe_returns reentrant 0 {| disconnect := 1; closed := false |}
           1 2 (subscribed_once reentrant) 0).
  - reflexivity.
  - reflexivity.
  - reflexivity.
  - reflexivity.
Defined.

(** two Subscriptions of one Observable, unsubscribed one after the other *)
Lemma two_subscriptions_two_disconnects :
  nth_error
    (scopes (fst (exec passive 1 (Unsubscribe (Guarded 0)) (subscribed_twice passive)))) 1
    = Some {| disconnect := 1; closed := false |} /\
  events_since (subscribed_twice passive)
    (fst (exec passive 1 (Unsubscribe (Guarded 1))
            (fst (exec passive 1 (Unsubscribe (Guarded 0)) (subscribed_twice passive)))))
  = [Disconnect 1; Disconnect 1].
Proof.
  apply (unsubscribe_leaves_other_subscriptions passive 0 1
           {| disconnect := 1; closed := false |} {| disconnect := 1; closed := false |}
           1 1 (subscribed_twice passive) 0).
  - discriminate.
  - reflexivity.
  - reflexivity.
  - reflexivity.
  - reflexivity.
  - reflexivity.
  - reflexivity.
  - reflexivity.
Defined.

End SubscriptionScenarios.

Module SymbolObservableScenarios.
Import String.StringSyntax SymbolObservable SymbolObservableTheory.

Local Open Scope string_scope.

(** in a browser, a library that reads [window.Symbol] after one that read
    [self.Symbol] gets the symbol the first one made *)
Lemma second_library_gets_the_first_symbol :
  symbolObservablePonyfill {| Symbol := Some 0 |}
    (snd (symbolObservablePonyfill {| Symbol := Some 0 |} clean))
  = (fst (symbolObservablePonyfill {| Symbol := Some 0 |} clean),
     snd (symbolObservablePonyfill {| Symbol := Some 0 |} clean)) /\
  fst (symbolObservablePonyfill {| Symbol := Some 0 |} clean) = Sym 0.
Proof.
  split; [| reflexivity].
  apply (libraries_sharing_Symbol_agree {| Symbol := Some 0 |} {| Symbol := Some 0 |} clean).
  reflexivity.
Defined.

(** dist in Node, no global [result] *)
Lemma dist_throws_in_node :
  fst (dist_observable node clean) = None /\
  (forall f, observable (snd (dist_observable node clean)) f = observable clean f) /\
  result (snd (dist_observable node clean)) = None.
Proof.
  apply (dist_initializer_throws_without_global_result node clean). reflexivity.
Defined.

(** dist in Node, with a global [result] *)
Lemma dist_in_node_with_global_result :
  fst (dist_observable node with_result)
    = Some (fst (symbolObservablePonyfill (dist_root node) with_result)) /\
  (forall f, observable (snd (dist_observable node with_result)) f
             = observable (snd (symbolObservablePonyfill (dist_root node) with_result)) f) /\
  created (snd (dist_observable node with_result))
    = created (snd (symbolObservablePonyfill (dist_root node) with_result)) /\
  result (snd (dist_observable node with_result))
    = Some (Some (fst (symbolObservablePonyfill (dist_root node) with_result))).
Proof.
  apply (dist_initializer_is_the_ponyfill node with_result None). reflexivity.
Defined.

(** the bundle in Node *)
Lemma bundle_in_node : bundle_observable node clean = (Str "@@observable", clean).
Proof.
  apply (bundle_ignores_Symbol_without_self_and_window node clean); reflexivity.
Defined.

End SymbolObservableScenarios.

Module PundleScenarios.
Import String.StringSyntax Pundle PundlePrograms PundleTheory.

Local Open Scope string_scope.

(** two modules that require each other *)
Lemma circular_require_comes_back :
  (exists v,
     snd (exec nat 0 1 Object_prototype circular_body 3 (Require "$root" "a")
            circular_registered) = Returned (Exports v)) \/
  (exists e,
     snd (exec nat 0 1 Object_prototype circular_body 3 (Require "$root" "a")
            circular_registered) = Threw e).
Proof.
  apply (require_returns_or_throws nat 0 1 Object_prototype circular_body 3 "$root" "a"
           circular_registered).
  - intros [| [| cb]] w0 a H; simpl in H;
      repeat (destruct H as [<- | H]; [exact I |]); contradiction.
  - vm_compute. lia.
Defined.

(** the bundle: [__require('$root/index.ts')] when the four modules are
    registered *)
Lemma bundle_require_returns :
  exists v,
    snd (exec nat 0 1 Object_prototype bundle_body 5 (Require "$root" index_ts)
           bundle_registered) = Returned (Exports v) /\
    exports_of nat index_ts
      (fst (exec nat 0 1 Object_prototype bundle_body 5 (Require "$root" index_ts)
              bundle_registered)) = Exports v.
Proof.
  apply (require_returns_exports nat 0 1 Object_prototype bundle_body 5 "$root" index_ts
           bundle_registered).
  - intros [| [| [| [| cb]]]] w0 a H; simpl in H;
      repeat (destruct H as [<- | H]; [try exact I; vm_compute; discriminate |]);
      contradiction.
  - vm_compute. discriminate.
  - vm_compute. lia.
Defined.

(** a module that throws: the second [__require] returns what it had
    exported *)
Lemma second_require_of_failed_module :
  exists v w2,
    exec nat 0 1 Object_prototype failing_body 1 (Require "$root" "a")
      (fst (exec nat 0 1 Object_prototype failing_body 1 (Require "$root" "a")
              failing_registered))
    = (w2, Returned (Exports v)) /\
    trace nat w2
    = trace nat (fst (exec nat 0 1 Object_prototype failing_body 1 (Require "$root" "a")
                        failing_registered)) /\
    exports_of nat "a"
      (fst (exec nat 0 1 Object_prototype failing_body 1 (Require "$root" "a")
              failing_registered)) = Exports v.
Proof.
  apply (failed_module_is_not_retried nat 0 1 Object_prototype failing_body 1 0
           "$root" "$root" "a" failing_registered
           (fst (exec nat 0 1 Object_prototype failing_body 1 (Require "$root" "a")
                   failing_registered))
           (Raised 7)).
  - vm_compute. discriminate.
  - reflexivity.
Defined.

(** after the bundle has run and [__proto__] was registered: the path
    [callback], which nobody registered and which was not inherited at the
    start, is inherited now; the path [rxjs] is not found *)
Lemma requiring_callback_after_registering_proto :
  (exec nat 0 1 Object_prototype bundle_body 1 (Require "$root" "callback")
     (fst (script nat 0 1 Object_prototype bundle_body 5 bundle_then_proto init))
   = (fst (script nat 0 1 Object_prototype bundle_body 5 bundle_then_proto init),
      Threw (if inherits nat Object_prototype
                  (fst (script nat 0 1 Object_prototype bundle_body 5 bundle_then_proto init))
                  "callback"
             then TypeError else ModuleNotFound)) /\
   (String.eqb "callback" "callback" = false ->
    inherits nat Object_prototype
      (fst (script nat 0 1 Object_prototype bundle_body 5 bundle_then_proto init)) "callback"
    = Object_prototype "callback") /\
   (Object_prototype "__proto__" = false ->
    inherits nat Object_prototype
      (fst (script nat 0 1 Object_prototype bundle_body 5 bundle_then_proto init)) "callback"
    = Object_prototype "callback")) /\
  Object_prototype "callback" = false /\
  snd (exec nat 0 1 Object_prototype bundle_body 1 (Require "$root" "callback")
         (fst (script nat 0 1 Object_prototype bundle_body 5 bundle_then_proto init)))
    = Threw TypeError /\
  snd (exec nat 0 1 Object_prototype bundle_body 1 (Require "$root" "callback")
         (fst (script nat 0 1 Object_prototype bundle_body 5 bundle init)))
    = Threw ModuleNotFound /\
  snd (exec nat 0 1 Object_prototype bundle_body 1 (Require "$root" "toString")
         (fst (script nat 0 1 Object_prototype bundle_body 5 bundle init)))
    = Threw TypeError.
Proof.
  split; [| repeat split; reflexivity].
  apply (unregistered_module_is_not_found nat 0 1 Object_prototype bundle_body 5 0
           bundle_then_proto "$root" "callback").
  - intros [| [| [| [| cb]]]] w0 a H; simpl in H;
      repeat (destruct H as [<- | H]; [exact I |]); contradiction.
  - intros c H. simpl in H.
    repeat (destruct H as [<- | H]; [try exact I; vm_compute; discriminate |]).
    contradiction.
Defined.

End PundleScenarios.
